(** * based.py: guessing the load base of a raw image

    A shallow embedding of [based.py] and the properties of its scan.

    Python integers are unbounded, so they are [Z] with no wrap-around.
    A [bytes] object is a [list byte].  The binary file object handed to
    [scan_file] is a byte sequence with a read cursor; the functions that
    touch it live in a small state-and-error monad.  The two generators
    ([chunkify], [iter_cstrings_raw] / [iter_cstrings]) are consumed to the
    end by the only loops that use them, and those loops never touch the
    stream, so a generator is the list of the values it yields.  The loop
    [while True] of [chunkify] carries fuel: running out of fuel for every
    amount of fuel is how a loop that never ends shows up. *)

From Stdlib Require Import ZArith List Lia Permutation Sorted.
From Stdlib Require Import Strings.Byte Strings.String.
From stdpp Require Import gmap.
Import ListNotations.

Local Open Scope Z_scope.

(** ** Bytes *)

Definition bytes := list byte.

(** [len(b)] as a Python integer. *)
Definition blen (b : bytes) : Z := Z.of_nat (length b).

(** The integer a byte stands for, as iteration over [bytes] gives it. *)
Definition byte_val (b : byte) : Z := Z.of_N (Byte.to_N b).

(** [sep] occurs at the very start of [data]. *)
Fixpoint starts_with (sep data : bytes) : bool :=
  match sep, data with
  | [], _ => true
  | _ :: _, [] => false
  | a :: sep', b :: data' => Byte.eqb a b && starts_with sep' data'
  end.

(** ** Outcomes: a value, a Python exception, or a loop still running *)

(** The exceptions the program can end in; [SystemExit] is how argparse
    refuses an argument, [MemoryError] how the runtime refuses an integer
    it cannot allocate. *)
Inductive exn : Set := ValueError | IndexError | SystemExit | MemoryError.

Inductive outcome (A : Type) : Type :=
| Returns (a : A)
| Raises (e : exn)
| OutOfFuel.
Arguments Returns {A} a.
Arguments Raises {A} e.
Arguments OutOfFuel {A}.

(** ** The binary stream *)

Module Stream.
Record t : Type := mk { content : bytes; cursor : nat }.

(** [open(path, "rb")]: the cursor starts at 0. *)
Definition open (data : bytes) : t := mk data 0.

(** The bytes from the cursor to the end of the file. *)
Definition remaining (s : t) : bytes := skipn (cursor s) (content s).
End Stream.

(** Computations over the stream. *)
Definition io (A : Type) : Type := Stream.t -> outcome (A * Stream.t).

Definition ret {A} (a : A) : io A := fun s => Returns (a, s).
Definition raise {A} (e : exn) : io A := fun _ => Raises e.
Definition bind {A B} (m : io A) (k : A -> io B) : io B :=
  fun s => match m s with
           | Returns (a, s') => k a s'
           | Raises e => Raises e
           | OutOfFuel => OutOfFuel
           end.

Notation "'let*' x ':=' m 'in' k" := (bind m (fun x => k))
  (at level 10, x name, m at level 200, k at level 200,
   format "'[v' 'let*'  x  ':='  m  'in' '/' k ']'").

(** [stream.seek(n)]. *)
Definition seek (n : nat) : io unit :=
  fun s => Returns (tt, Stream.mk (Stream.content s) n).

(** [stream.read(n)] of the buffered reader that [open(path, "rb")]
    gives: at most [n] bytes from the cursor on, fewer only at the end of
    the file; all the rest for [n = -1] ([stream.read()] is
    [stream.read(-1)]); [ValueError] for a size below -1.  The reader
    also refuses, with OverflowError, a size that does not fit a machine
    word (2 ^ 63 or more); that limit of the runtime is left out here,
    and the program itself only reads with sizes 4 and 8. *)
Definition read (n : Z) : io bytes :=
  fun s =>
    if n <? -1 then Raises ValueError
    else
      let rest := Stream.remaining s in
      let d := if n <? 0 then rest else firstn (Z.to_nat n) rest in
      Returns (d, Stream.mk (Stream.content s) (Stream.cursor s + length d)).

(** The value a computation returns, the final stream forgotten. *)
Definition result_of {A} (o : outcome (A * Stream.t)) : outcome A :=
  match o with
  | Returns (a, _) => Returns a
  | Raises e => Raises e
  | OutOfFuel => OutOfFuel
  end.

(** ** chunkify *)

(** [endian] is one of the two strings [int.from_bytes] accepts. *)
Inductive byteorder : Set := little | big.

(** [int.from_bytes(d, byteorder=endian)], unsigned. *)
Definition int_from_bytes (d : bytes) (endian : byteorder) : Z :=
  let be := fold_left (fun acc b => acc * 256 + byte_val b) in
  match endian with
  | big => be d 0
  | little => be (rev d) 0
  end.

Fixpoint chunkify (fuel : nat) (pointer_size : Z) (endian : byteorder)
  : io (list Z) :=
  match fuel with
  | O => fun _ => OutOfFuel
  | S fuel' =>
      let* d := read pointer_size in
      if blen d <? pointer_size then ret []
      else
        let val := int_from_bytes d endian in
        let* rest := chunkify fuel' pointer_size endian in
        ret (val :: rest)
  end.

(** ** iter_cstrings_raw *)

(** [data.split(sep)] for a non-empty [sep]: [skip] counts the bytes of a
    separator just matched that are still to be passed over. *)
Fixpoint split_from (sep data : bytes) (skip : nat) : list bytes :=
  match data with
  | [] => [[]]
  | b :: rest =>
      match skip with
      | S k => split_from sep rest k
      | O =>
          if starts_with sep data
          then [] :: split_from sep rest (length sep - 1)
          else match split_from sep rest 0 with
               | run :: runs => (b :: run) :: runs
               | [] => [[b]]
               end
      end
  end.

(** [bytes.split] raises [ValueError] on an empty separator. *)
Definition bytes_split (data sep : bytes) : outcome (list bytes) :=
  match sep with
  | [] => Raises ValueError
  | _ :: _ => Returns (split_from sep data 0)
  end.

(** A string with the file offset it starts at. *)
Definition cstring : Type := Z * bytes.

(** The loop of [iter_cstrings_raw]: [pos] advances past each run and
    the delimiter after it. *)
Fixpoint number_runs (pos : Z) (delimiter : bytes) (runs : list bytes)
  : list cstring :=
  match runs with
  | [] => []
  | sin :: runs' =>
      (pos, sin) :: number_runs (pos + (blen sin + blen delimiter)) delimiter runs'
  end.

(** The default of [delimiter]: one 0x00 byte. *)
Definition default_delimiter : bytes := [x00].

Definition iter_cstrings_raw (delimiter : bytes) : io (list cstring) :=
  let* _ := seek 0 in
  let* data := read (-1) in
  match bytes_split data delimiter with
  | Returns runs => ret (number_runs 0 delimiter runs)
  | Raises e => raise e
  | OutOfFuel => fun _ => OutOfFuel
  end.

(** ** iter_cstrings *)

(** [string.printable.encode("ascii")]: digits, letters, punctuation and
    the six whitespace characters, in that order. *)
Definition charset : bytes :=
  list_byte_of_string "0123456789abcdefghijklmnopqrstuvwxyzABCDEFGHIJKLMNOPQRSTUVWXYZ!"
  ++ [x22]
  ++ list_byte_of_string "#$%&'()*+,-./:;<=>?@[\]^_`{|}~ "
  ++ [x09; x0a; x0d; x0b; x0c].

(** [c in charset]. *)
Definition in_charset (c : byte) : bool :=
  existsb (Byte.eqb c) charset.

(** The loop of [iter_cstrings] over the strings it is given. *)
Definition keep_cstring (threshold : Z) (s : cstring) : bool :=
  if blen (snd s) <? threshold then false
  else if existsb (fun c => negb (in_charset c)) (snd s) then false
  else true.

(** The default of [threshold]. *)
Definition default_threshold : Z := 10.

Definition iter_cstrings (threshold : Z) : io (list cstring) :=
  let* raw := iter_cstrings_raw default_delimiter in
  ret (List.filter (keep_cstring threshold) raw).

(** ** make_mask *)

(** [(1 << n) - 1]; a negative shift count raises [ValueError].  This is
    the function on a runtime that can hold the result whatever [n];
    [make_mask_within] below adds the limit of a real one. *)
Definition make_mask (n : Z) : outcome Z :=
  if n <? 0 then Raises ValueError else Returns (Z.shiftl 1 n - 1).

(** ** scan_file *)

(** [collections.Counter]: a dict, so its items in insertion order with
    no key twice. *)
Definition counter : Type := list (Z * Z).

(** [c[key]]: a missing key counts 0. *)
Fixpoint counter_get (c : counter) (key : Z) : Z :=
  match c with
  | [] => 0
  | (k, n) :: c' => if k =? key then n else counter_get c' key
  end.

(** [c[key] = n]: an existing key keeps its place, a new one goes last. *)
Fixpoint counter_set (c : counter) (key n : Z) : counter :=
  match c with
  | [] => [(key, n)]
  | (k, m) :: c' =>
      if k =? key then (k, n) :: c' else (k, m) :: counter_set c' key n
  end.

(** [c[key] += n]. *)
Definition counter_add (c : counter) (key n : Z) : counter :=
  counter_set c key (counter_get c key + n).

(** The keys, in insertion order. *)
Definition counter_keys (c : counter) : list Z := map fst c.

(** [Counter.total()]. *)
Definition counter_total (c : counter) : Z :=
  fold_right (fun kv acc => snd kv + acc) 0 c.

(** The body of the loop that fills the index [M], masked offset to the
    strings that share it: a missing bucket is created empty, then the
    string is appended (the bucket is there by then, so the default is
    never taken). *)
Definition index_add (MASK : Z) (M : gmap Z (list cstring)) (s : cstring)
  : gmap Z (list cstring) :=
  let offset := fst s in
  let masked_offset := Z.land offset MASK in
  let M := match M !! masked_offset with
           | Some _ => M
           | None => <[masked_offset := []]> M
           end in
  <[masked_offset := default [] (M !! masked_offset) ++ [s]]> M.

Definition build_index (MASK : Z) (strs : list cstring)
  : gmap Z (list cstring) :=
  fold_left (index_add MASK) strs ∅.

(** The inner loop: one string of the bucket [M[lo]], [weight] being
    [len(M[lo])]. *)
Definition vote_string (chk weight : Z) (c : counter) (s : cstring) : counter :=
  let off := fst s in
  let base := chk - off in
  if base <? 0 then c else counter_add c base weight.

(** The body of the loop over the pointer words. *)
Definition vote (M : gmap Z (list cstring)) (MASK : Z) (c : counter) (chk : Z)
  : counter :=
  let lo := Z.land chk MASK in
  match M !! lo with
  | Some bucket => fold_left (vote_string chk (Z.of_nat (length bucket))) bucket c
  | None => c
  end.

(** The loop over the pointer words, from an empty counter. *)
Definition votes (M : gmap Z (list cstring)) (MASK : Z) (chunks : list Z)
  : counter :=
  fold_left (vote M MASK) chunks [].

(** A computation that does not touch the stream. *)
Definition lift {A} (o : outcome A) : io A :=
  fun s => match o with
           | Returns a => Returns (a, s)
           | Raises e => Raises e
           | OutOfFuel => OutOfFuel
           end.

Definition scan_file (fuel : nat) (endian : byteorder) (pointer_size mask : Z)
  : io counter :=
  let* MASK := lift (make_mask mask) in
  let* strs := iter_cstrings default_threshold in
  let M := build_index MASK strs in
  let* _ := seek 0 in
  let* chunks := chunkify fuel pointer_size endian in
  ret (votes M MASK chunks).

(** *** The scan on a runtime of limited capacity *)

(** [make_mask] on a runtime where [1 << n] can be allocated for
    [n <= capacity] only: past that the shift ends in [MemoryError] (on a
    64-bit machine [1 << 2 ** 64] already does). *)
Definition make_mask_within (capacity n : Z) : outcome Z :=
  if n <? 0 then Raises ValueError
  else if capacity <? n then Raises MemoryError
  else Returns (Z.shiftl 1 n - 1).

(** [scan_file] on that runtime. *)
Definition scan_file_within (capacity : Z) (fuel : nat) (endian : byteorder)
    (pointer_size mask : Z) : io counter :=
  let* MASK := lift (make_mask_within capacity mask) in
  let* strs := iter_cstrings default_threshold in
  let M := build_index MASK strs in
  let* _ := seek 0 in
  let* chunks := chunkify fuel pointer_size endian in
  ret (votes M MASK chunks).

(** ** main *)

(** Insertion of an item into a list sorted by descending count, before
    the items of equal count: inserting the items last to first, as
    [sorted_desc] does, keeps items of equal count in their order (the
    sort is stable). *)
Fixpoint insert_desc (kv : Z * Z) (l : list (Z * Z)) : list (Z * Z) :=
  match l with
  | [] => [kv]
  | kv' :: l' =>
      if snd kv' <=? snd kv then kv :: l else kv' :: insert_desc kv l'
  end.

(** [sorted(c.items(), key=itemgetter(1), reverse=True)]. *)
Definition sorted_desc (c : counter) : list (Z * Z) :=
  fold_right insert_desc [] c.

(** [Counter.most_common(n)]: the [n] largest items, largest first, ties
    in insertion order. *)
Definition most_common (n : nat) (c : counter) : list (Z * Z) :=
  firstn n (sorted_desc c).

(** What [main] prints: the best base, or with [--verbose] the rows of
    the ten most common bases (the text layout is left out). *)
Inductive printed : Type :=
| PrintBest (best_result : Z)
| PrintTable (rows : list (Z * Z)).

(** [main] on the opened file and the parsed arguments.  The parser
    admits [--pointer-size] 4 or 8 only ([choices=[4, 8]]) and any
    integer as [--mask]; [--endian] is one of the two byte orders. *)
Definition main (fuel : nat) (endian : byteorder) (pointer_size mask : Z)
    (verbose : bool) : io printed :=
  if negb ((pointer_size =? 4) || (pointer_size =? 8)) then raise SystemExit
  else
    let* result := scan_file fuel endian pointer_size mask in
    match most_common 1 result with
    | [] => raise IndexError
    | (best_result, _) :: _ =>
        if verbose then ret (PrintTable (most_common 10 result))
        else ret (PrintBest best_result)
    end.

(** ** Running on an image *)

(** A computation run on the freshly opened file of an image. *)
Definition run {A} (m : io A) (image : bytes) : outcome A :=
  result_of (m (Stream.open image)).

(** A 0x00 byte, HELLOWORLD from offset 1 on, a 0x00 byte, and the
    little-endian pointer word 0x1001 = 0x1000 + 1. *)
Definition hello_image : bytes :=
  [x00] ++ list_byte_of_string "HELLOWORLD" ++ [x00] ++ [x01; x10; x00; x00].

(** The same image with the pointer word 0x1002 = 0x1001 + 1. *)
Definition unaligned_image : bytes :=
  [x00] ++ list_byte_of_string "HELLOWORLD" ++ [x00] ++ [x02; x10; x00; x00].

(** Two strings, at offsets 0 and 16, and the pointer word 0x1010. *)
Definition twin_image : bytes :=
  list_byte_of_string "AAAAAAAAAAAAAAA" ++ [x00]
  ++ list_byte_of_string "BBBBBBBBBBB" ++ [x00]
  ++ [x10; x10; x00; x00].

(** The two strings of [twin_image]. *)
Definition twin_strings : list cstring :=
  [(0, list_byte_of_string "AAAAAAAAAAAAAAA");
   (16, list_byte_of_string "BBBBBBBBBBB")].

(** The strings and the bytes before the pointer word of [twin_image]:
    [twin_image] is this image with one more pointer word. *)
Definition twin_body : bytes :=
  list_byte_of_string "AAAAAAAAAAAAAAA" ++ [x00]
  ++ list_byte_of_string "BBBBBBBBBBB" ++ [x00].

(** The pointer word 0x2004, then a string from offset 4 to the end of
    the image, with no delimiter after it. *)
Definition open_image : bytes :=
  [x04; x20; x00; x00] ++ list_byte_of_string "HELLOWORLD12".

(** Twelve line feeds and four 0x00 bytes: no byte from space to tilde. *)
Definition newline_image : bytes :=
  repeat x0a 12 ++ repeat x00 4.

(** HELLO, a tab, WORLD. *)
Definition tab_image : bytes :=
  list_byte_of_string "HELLO" ++ [x09] ++ list_byte_of_string "WORLD".

(** Two runs of twelve letters with an X between them, and no 0x00. *)
Definition letters_image : bytes :=
  list_byte_of_string "HELLOWORLDabXABCDEFGHIJKL".

(** Twelve bytes, none of them printable. *)
Definition binary_image : bytes :=
  [x01; x02; x03; x04; x05; x06; x07; x08; x0e; x0f; x7f; xff].

(** ** Vocabulary of the statements *)

(** The window of [size] bytes that starts at byte [start] of the image. *)
Definition window (image : bytes) (start size : nat) : bytes :=
  firstn size (skipn start image).

(** The whole windows of [size] bytes from byte [start] on, decoded, in
    ascending order. *)
Definition decoded_windows (image : bytes) (start size : nat)
    (endian : byteorder) : list Z :=
  map (fun i => int_from_bytes (window image (start + i * size) size) endian)
      (seq 0 ((length image - start) / size)).

(** The codes of the bytes of [string.printable], the set [charset] is
    made of: 0x20 to 0x7e, and also the whitespace controls 0x09 to
    0x0d (tab, line feed, vertical tab, form feed, carriage return). *)
Definition string_printable (c : byte) : Prop :=
  9 <= byte_val c <= 13 \/ 32 <= byte_val c <= 126.

(** The printable ASCII characters in the usual, narrower sense, space to
    tilde: no control character is one. *)
Definition printable_ascii (c : byte) : Prop :=
  32 <= byte_val c <= 126.

(** The strings of a bucket that give pointer [chk] the base [b], [b]
    not negative. *)
Definition pairs_for (chk b : Z) (bucket : list cstring) : list cstring :=
  List.filter (fun s => (0 <=? chk - fst s) && (chk - fst s =? b)) bucket.

(** The strings of a bucket whose base for pointer [chk] is not negative. *)
Definition pairs_of (chk : Z) (bucket : list cstring) : list cstring :=
  List.filter (fun s => 0 <=? chk - fst s) bucket.

(** What pointer [chk] adds to the count of base [b]. *)
Definition weight (M : gmap Z (list cstring)) (MASK chk b : Z) : Z :=
  match M !! Z.land chk MASK with
  | Some bucket =>
      Z.of_nat (length bucket) * Z.of_nat (length (pairs_for chk b bucket))
  | None => 0
  end.

(** String [s] is the bytes of the image from its offset on. *)
Definition lies_at (image : bytes) (s : cstring) : Prop :=
  0 <= fst s
  /\ snd s = window image (Z.to_nat (fst s)) (length (snd s))
  /\ fst s + blen (snd s) <= blen image.

(** The byte just before offset [off] of the image is the delimiter. *)
Definition after_delimiter (image : bytes) (off : Z) : Prop :=
  0 < off /\ nth_error image (Z.to_nat (off - 1)) = Some x00.

(** Offsets strictly ascending. *)
Definition offset_lt (s1 s2 : cstring) : Prop := fst s1 < fst s2.

(** A string with its offset counted from [pos]. *)
Definition rebase (pos : Z) (s : cstring) : cstring := (fst s - pos, snd s).

(** The sum of a list of integers. *)
Definition sum_Z (l : list Z) : Z := fold_right Z.add 0 l.

(** A counter as [scan_file] builds it: no key twice, every key a
    non-negative base with a positive count. *)
Definition well_formed (c : counter) : Prop :=
  List.NoDup (counter_keys c)
  /\ forall k, In k (counter_keys c) -> 0 <= k /\ 0 < counter_get c k.

(** The strings whose masked offset is [k], in their order. *)
Definition bucket_of (MASK : Z) (strs : list cstring) (k : Z) : list cstring :=
  List.filter (fun s => Z.land (fst s) MASK =? k) strs.

(** [sep.join(runs)]. *)
Fixpoint bytes_join (sep : bytes) (runs : list bytes) : bytes :=
  match runs with
  | [] => []
  | run :: runs' =>
      match runs' with
      | [] => run
      | _ :: _ => run ++ sep ++ bytes_join sep runs'
      end
  end.

(** How many bytes of [data] are the byte [b]. *)
Definition count_byte (b : byte) (data : bytes) : nat :=
  length (List.filter (Byte.eqb b) data).

(** String [s1] ends before string [s2] starts. *)
Definition ends_before (s1 s2 : cstring) : Prop :=
  fst s1 + blen (snd s1) < fst s2.

(** Counts descending. *)
Definition count_ge (kv1 kv2 : Z * Z) : Prop := snd kv2 <= snd kv1.

(** Pointer word [chk] gives base [b], not negative, with a string of
    the bucket. *)
Definition points_at (chk b : Z) (bucket : list cstring) : bool :=
  (0 <=? b) && existsb (fun s => chk - fst s =? b) bucket.

(** * Properties *)

(** ** The definitions at work *)

Example split_at_two_byte_delimiter :
  bytes_split (list_byte_of_string "abXYcdXY") (list_byte_of_string "XY")
  = Returns [list_byte_of_string "ab"; list_byte_of_string "cd"; []].
Proof. reflexivity. Qed.

Example split_leftmost_first :
  bytes_split (list_byte_of_string "aaa") (list_byte_of_string "aa")
  = Returns [[]; list_byte_of_string "a"].
Proof. reflexivity. Qed.

Example split_at_empty_delimiter :
  run (iter_cstrings_raw []) hello_image = Raises ValueError.
Proof. reflexivity. Qed.

Example raw_strings_of_hello_image :
  run (iter_cstrings_raw default_delimiter) hello_image
  = Returns [(0, []); (1, list_byte_of_string "HELLOWORLD");
             (12, [x01; x10]); (15, []); (16, [])].
Proof. reflexivity. Qed.

Example tab_is_in_charset :
  run (iter_cstrings 10) (list_byte_of_string "HELLO" ++ [x09]
                          ++ list_byte_of_string "WORLD")
  = Returns [(0, list_byte_of_string "HELLO" ++ [x09]
                 ++ list_byte_of_string "WORLD")].
Proof. reflexivity. Qed.

Example decode_both_orders :
  int_from_bytes [x01; x10; x00; x00] little = 4097
  /\ int_from_bytes [x01; x10; x00; x00] big = 17825792.
Proof. split; reflexivity. Qed.

Example chunkify_drops_the_tail :
  run (chunkify 3 8 big) binary_image
  = Returns [int_from_bytes (firstn 8 binary_image) big].
Proof. reflexivity. Qed.

Example chunkify_size_below_minus_one :
  run (chunkify 3 (-2) little) hello_image = Raises ValueError.
Proof. reflexivity. Qed.

Example make_mask_values :
  make_mask 12 = Returns 4095
  /\ make_mask 0 = Returns 0
  /\ make_mask (-1) = Raises ValueError.
Proof. repeat split; reflexivity. Qed.

Example counter_add_keeps_places :
  counter_add (counter_add (counter_add [] 7 2) 3 1) 7 2 = [(7, 4); (3, 1)].
Proof. reflexivity. Qed.

Example most_common_is_stable :
  most_common 3 [(1, 5); (2, 7); (3, 5); (4, 7)] = [(2, 7); (4, 7); (1, 5)]
  /\ most_common 1 [(1, 5); (3, 5)] = [(1, 5)]
  /\ most_common 1 [] = [].
Proof. repeat split; reflexivity. Qed.

Example main_verbose_on_twin_image :
  run (main 9 little 4 4 true) twin_image
  = Returns (PrintTable [(4112, 2); (4096, 2)]).
Proof. vm_compute. reflexivity. Qed.

(** ** The stream monad *)

Section Monad.
Context {A B : Type}.

Lemma bind_returns (m : io A) (k : A -> io B) s a s' :
  m s = Returns (a, s') -> bind m k s = k a s'.
Proof. unfold bind. intros ->. reflexivity. Qed.

Lemma bind_raises (m : io A) (k : A -> io B) s e :
  m s = Raises e -> bind m k s = Raises e.
Proof. unfold bind. intros ->. reflexivity. Qed.

Lemma bind_out_of_fuel (m : io A) (k : A -> io B) s :
  m s = OutOfFuel -> bind m k s = OutOfFuel.
Proof. unfold bind. intros ->. reflexivity. Qed.
End Monad.

(** ** chunkify *)

Section Chunkify.
Variable image : bytes.
Variable endian : byteorder.

Lemma read_window (n : nat) (k : nat) :
  read (Z.of_nat n) (Stream.mk image k)
  = Returns (window image k n, Stream.mk image (k + length (window image k n))).
Proof.
  unfold read, Stream.remaining, window; simpl.
  destruct (Z.ltb_spec (Z.of_nat n) (-1)) as [H|_]; [lia|].
  destruct (Z.ltb_spec (Z.of_nat n) 0) as [H|_]; [lia|].
  now rewrite Nat2Z.id.
Qed.

Lemma length_window (k n : nat) :
  length (window image k n) = Nat.min n (length image - k).
Proof. unfold window. now rewrite length_firstn, length_skipn. Qed.

Lemma decoded_windows_short (k n : nat) :
  (length image - k < n)%nat -> decoded_windows image k n endian = [].
Proof.
  intros H. unfold decoded_windows. now rewrite Nat.div_small.
Qed.

Lemma decoded_windows_step (k n : nat) :
  (0 < n)%nat -> (n <= length image - k)%nat ->
  decoded_windows image k n endian
  = int_from_bytes (window image k n) endian
      :: decoded_windows image (k + n) n endian.
Proof.
  intros Hn Hk. unfold decoded_windows.
  replace (length image - k)%nat with (length image - (k + n) + 1 * n)%nat by lia.
  rewrite Nat.div_add by lia.
  rewrite Nat.add_1_r. cbn [seq map].
  rewrite Nat.add_0_r. f_equal.
  rewrite <- seq_shift, map_map.
  apply map_ext; intros i. f_equal. f_equal. lia.
Qed.

(** With a positive size and fuel for one round more than there are
    whole windows, [chunkify] returns the decoded windows. *)
Lemma chunkify_from (n : nat) (fuel k : nat) :
  (0 < n)%nat -> ((length image - k) / n < fuel)%nat ->
  exists s',
    chunkify fuel (Z.of_nat n) endian (Stream.mk image k)
    = Returns (decoded_windows image k n endian, s').
Proof.
  intros Hn. revert k.
  induction fuel as [|fuel IH]; intros k Hfuel; [lia|].
  cbn [chunkify].
  rewrite (bind_returns _ _ _ _ _ (read_window n k)).
  unfold blen. rewrite length_window.
  destruct (Z.ltb_spec (Z.of_nat (Nat.min n (length image - k))) (Z.of_nat n))
    as [Hshort|Hfull].
  - eexists. unfold ret. rewrite decoded_windows_short by lia. reflexivity.
  - assert (Hle : (n <= length image - k)%nat) by lia.
    rewrite Nat.min_l by lia.
    destruct (IH (k + n)%nat) as [s' Hs'].
    + replace (length image - k)%nat
        with (length image - (k + n) + 1 * n)%nat in Hfuel by lia.
      rewrite Nat.div_add in Hfuel by lia. lia.
    + rewrite (bind_returns _ _ _ _ _ Hs').
      eexists. unfold ret. rewrite (decoded_windows_step k n) by lia.
      reflexivity.
Qed.
End Chunkify.

Lemma nth_map_seq {X} (f : nat -> X) (n i : nat) (d : X) :
  (i < n)%nat -> nth i (map f (seq 0 n)) d = f i.
Proof.
  intros Hi.
  rewrite (nth_indep _ d (f 0%nat)) by (rewrite length_map, length_seq; lia).
  rewrite map_nth, seq_nth by lia. reflexivity.
Qed.

(** ** int.from_bytes *)

Lemma byte_val_range (b : byte) : 0 <= byte_val b < 256.
Proof.
  unfold byte_val. pose proof (Byte.to_N_bounded b). lia.
Qed.

Lemma big_endian_range (d : bytes) (acc : Z) (k : nat) :
  0 <= acc < 256 ^ Z.of_nat k ->
  0 <= fold_left (fun acc b => acc * 256 + byte_val b) d acc
     < 256 ^ Z.of_nat (k + length d).
Proof.
  revert acc k. induction d as [|b d IH]; intros acc k Hacc; cbn [fold_left length].
  - now rewrite Nat.add_0_r.
  - replace (k + S (length d))%nat with (S k + length d)%nat by lia.
    apply IH. pose proof (byte_val_range b).
    rewrite Nat2Z.inj_succ, Z.pow_succ_r by lia. nia.
Qed.

(** The decoded integer is unsigned and fits the bytes it is read from. *)
Lemma int_from_bytes_range (d : bytes) (endian : byteorder) :
  0 <= int_from_bytes d endian < 2 ^ (8 * blen d).
Proof.
  replace (2 ^ (8 * blen d)) with (256 ^ Z.of_nat (0 + length d)).
  - destruct endian; unfold int_from_bytes.
    + rewrite <- length_rev. apply big_endian_range. simpl. lia.
    + apply big_endian_range. simpl. lia.
  - unfold blen. rewrite Nat.add_0_l.
    change 256 with (2 ^ 8). rewrite <- Z.pow_mul_r by lia. reflexivity.
Qed.

(** C6: for a positive pointer size (4 and 8 among them) and fuel for one
    round more than the image has whole windows, [chunkify] on an image
    of length L read from offset 0 returns exactly floor(L / pointer_size)
    values; the i-th is the unsigned integer decoded, in the given byte
    order, from the bytes [i * pointer_size, (i + 1) * pointer_size); the
    bytes left after the last whole window yield nothing. *)
Theorem chunkify_yields_whole_windows
    (image : bytes) (pointer_size : Z) (endian : byteorder) (fuel : nat)
    (Hsize : 0 < pointer_size)
    (Hfuel : blen image / pointer_size < Z.of_nat fuel) :
  exists vals,
    run (chunkify fuel pointer_size endian) image = Returns vals
    /\ Z.of_nat (length vals) = blen image / pointer_size
    /\ forall i, (i < length vals)%nat ->
         nth i vals 0
         = int_from_bytes
             (window image (i * Z.to_nat pointer_size) (Z.to_nat pointer_size))
             endian
         /\ length (window image (i * Z.to_nat pointer_size)
                      (Z.to_nat pointer_size))
            = Z.to_nat pointer_size
         /\ 0 <= nth i vals 0 < 2 ^ (8 * pointer_size).
Proof.
  set (n := Z.to_nat pointer_size).
  assert (Hn : (0 < n)%nat) by lia.
  assert (Hps : pointer_size = Z.of_nat n) by lia.
  assert (Hdiv : blen image / pointer_size = Z.of_nat (length image / n)).
  { unfold blen. rewrite Hps, Nat2Z.inj_div. reflexivity. }
  destruct (chunkify_from image endian n fuel 0 Hn) as [s' Hrun].
  { rewrite Nat.sub_0_r. lia. }
  exists (decoded_windows image 0 n endian).
  split; [|split].
  - unfold run, Stream.open. rewrite Hps, Hrun. reflexivity.
  - unfold decoded_windows. rewrite length_map, length_seq, Nat.sub_0_r. lia.
  - unfold decoded_windows at 1. rewrite length_map, length_seq, Nat.sub_0_r.
    intros i Hi.
    assert (Hlen : length (window image (i * n) n) = n).
    { rewrite length_window.
      assert (i * n + n <= length image)%nat; [|lia].
      pose proof (Nat.Div0.mul_div_le (length image) n). nia. }
    assert (Hnth : nth i (decoded_windows image 0 n endian) 0
                   = int_from_bytes (window image (i * n) n) endian).
    { unfold decoded_windows.
      rewrite nth_map_seq by (rewrite Nat.sub_0_r; exact Hi).
      reflexivity. }
    split; [exact Hnth|split; [exact Hlen|]].
    rewrite Hnth.
    pose proof (int_from_bytes_range (window image (i * n) n) endian) as Hr.
    unfold blen in Hr. rewrite Hlen, <- Hps in Hr. exact Hr.
Qed.

Lemma chunkify_yields_whole_windows_witness :
  exists vals,
    run (chunkify 5 4 little) hello_image = Returns vals
    /\ Z.of_nat (length vals) = blen hello_image / 4
    /\ forall i, (i < length vals)%nat ->
         nth i vals 0
         = int_from_bytes
             (window hello_image (i * Z.to_nat 4) (Z.to_nat 4)) little
         /\ length (window hello_image (i * Z.to_nat 4) (Z.to_nat 4))
            = Z.to_nat 4
         /\ 0 <= nth i vals 0 < 2 ^ (8 * 4).
Proof.
  apply (chunkify_yields_whole_windows hello_image 4 little 5);
    [lia | vm_compute; reflexivity].
Defined.

(** ** iter_cstrings_raw and iter_cstrings *)

Lemma iter_cstrings_raw_unfold (delimiter : bytes) (s : Stream.t) :
  iter_cstrings_raw delimiter s
  = match bytes_split (Stream.content s) delimiter with
    | Returns runs =>
        Returns (number_runs 0 delimiter runs,
                 Stream.mk (Stream.content s) (0 + length (Stream.content s)))
    | Raises e => Raises e
    | OutOfFuel => OutOfFuel
    end.
Proof.
  unfold iter_cstrings_raw, bind, seek, read, Stream.remaining.
  change (-1 <? -1) with false. change (-1 <? 0) with true.
  cbn [Stream.content Stream.cursor]. rewrite skipn_O.
  destruct (bytes_split (Stream.content s) delimiter); reflexivity.
Qed.

(** The raw strings of an image, split at the default delimiter. *)
Lemma iter_cstrings_raw_default (s : Stream.t) :
  iter_cstrings_raw default_delimiter s
  = Returns (number_runs 0 default_delimiter
               (split_from default_delimiter (Stream.content s) 0),
             Stream.mk (Stream.content s) (0 + length (Stream.content s))).
Proof. now rewrite iter_cstrings_raw_unfold. Qed.

Lemma iter_cstrings_unfold (threshold : Z) (s : Stream.t) :
  iter_cstrings threshold s
  = Returns (List.filter (keep_cstring threshold)
               (number_runs 0 default_delimiter
                  (split_from default_delimiter (Stream.content s) 0)),
             Stream.mk (Stream.content s) (0 + length (Stream.content s))).
Proof.
  unfold iter_cstrings.
  now rewrite (bind_returns _ _ _ _ _ (iter_cstrings_raw_default s)).
Qed.

(** [charset] by its codes. *)
Lemma in_charset_codes (c : byte) :
  in_charset c
  = ((9 <=? byte_val c) && (byte_val c <=? 13)
     || (32 <=? byte_val c) && (byte_val c <=? 126))%bool.
Proof. destruct c; reflexivity. Qed.

Lemma in_charset_printable (c : byte) :
  in_charset c = true <-> string_printable c.
Proof.
  rewrite in_charset_codes. unfold string_printable.
  rewrite orb_true_iff, !andb_true_iff, !Z.leb_le. reflexivity.
Qed.

Lemma keep_cstring_true (threshold : Z) (s : cstring) :
  keep_cstring threshold s = true
  <-> threshold <= blen (snd s) /\ Forall string_printable (snd s).
Proof.
  unfold keep_cstring.
  destruct (Z.ltb_spec (blen (snd s)) threshold) as [Hlt|Hge].
  - split; [discriminate|]. intros [H _]. lia.
  - destruct (existsb (fun c => negb (in_charset c)) (snd s)) eqn:Hex.
    + split; [discriminate|]. intros [_ Hall].
      apply existsb_exists in Hex as [c [Hin Hc]].
      rewrite List.Forall_forall in Hall. apply Hall, in_charset_printable in Hin.
      rewrite Hin in Hc. discriminate.
    + split; [|reflexivity]. intros _. split; [exact Hge|].
      apply List.Forall_forall. intros c Hin. apply in_charset_printable.
      destruct (in_charset c) eqn:Hc; [reflexivity|].
      assert (existsb (fun c => negb (in_charset c)) (snd s) = true);
        [|congruence].
      apply existsb_exists. exists c. now rewrite Hc.
Qed.

(** C5, amended: whatever the image and the threshold, a run between
    0x00 bytes (the one delimiter [iter_cstrings] splits at: it takes
    none) is yielded if and only if its length is at least the threshold
    and the code of each of its bytes is 0x20 to 0x7e or 0x09 to 0x0d,
    the codes of [string.printable]; a shorter run, or one with a byte of
    another code, is never yielded. *)
Theorem iter_cstrings_keeps_long_string_printable
    (image : bytes) (threshold : Z) :
  exists raw out,
    run (iter_cstrings_raw default_delimiter) image = Returns raw
    /\ run (iter_cstrings threshold) image = Returns out
    /\ forall off str,
         In (off, str) out
         <-> In (off, str) raw
             /\ threshold <= blen str
             /\ forall c, In c str ->
                  9 <= byte_val c <= 13 \/ 32 <= byte_val c <= 126.
Proof.
  eexists _, _. unfold run.
  rewrite iter_cstrings_raw_default, iter_cstrings_unfold.
  split; [reflexivity|]. split; [reflexivity|].
  intros off str.
  rewrite filter_In, keep_cstring_true, List.Forall_forall. reflexivity.
Qed.

(** C5 as first stated fails twice.  A run with a tab, which is no
    printable ASCII character, is yielded.  And the delimiter is not the
    caller's: of the two runs that X separates in an image of letters,
    each long enough and all printable ASCII, the second is not yielded,
    the whole image is, as the one run between 0x00 bytes. *)
Lemma iter_cstrings_yields_tab_and_splits_at_nul_only :
  (run (iter_cstrings 10) tab_image = Returns [(0, tab_image)]
   /\ In x09 tab_image
   /\ ~ printable_ascii x09)
  /\ (run (iter_cstrings_raw (list_byte_of_string "X")) letters_image
      = Returns [(0, list_byte_of_string "HELLOWORLDab");
                 (13, list_byte_of_string "ABCDEFGHIJKL")]
      /\ 10 <= blen (list_byte_of_string "ABCDEFGHIJKL")
      /\ Forall printable_ascii (list_byte_of_string "ABCDEFGHIJKL")
      /\ run (iter_cstrings 10) letters_image = Returns [(0, letters_image)]
      /\ ~ In (13, list_byte_of_string "ABCDEFGHIJKL") [(0, letters_image)]).
Proof.
  split; [split; [reflexivity|split]|].
  - unfold tab_image. apply in_or_app. right. left. reflexivity.
  - unfold printable_ascii. change (byte_val x09) with 9. lia.
  - split; [reflexivity|]. split; [vm_compute; discriminate|].
    split; [|split; [reflexivity|]].
    + repeat constructor; unfold printable_ascii; vm_compute;
        intuition discriminate.
    + intros [Heq|[]]. discriminate Heq.
Qed.

(** *** The runs between default delimiters *)

Lemma split_from_default_cons (b : byte) (rest : bytes) :
  split_from default_delimiter (b :: rest) 0
  = if Byte.eqb x00 b
    then [] :: split_from default_delimiter rest 0
    else match split_from default_delimiter rest 0 with
         | run :: runs => (b :: run) :: runs
         | [] => [[b]]
         end.
Proof.
  cbn [split_from default_delimiter starts_with length Nat.sub].
  rewrite andb_true_r. reflexivity.
Qed.

Lemma blen_cons (b : byte) (d : bytes) : blen (b :: d) = blen d + 1.
Proof. unfold blen. cbn [length]. lia. Qed.

Lemma lies_at_cons (b : byte) (rest : bytes) (pos : Z) (s : cstring) :
  pos + 1 <= fst s ->
  lies_at rest (rebase (pos + 1) s) -> lies_at (b :: rest) (rebase pos s).
Proof.
  unfold lies_at, rebase, window; cbn [fst snd].
  intros Hpos (H0 & Hwin & Hlen).
  rewrite blen_cons. split; [lia|split; [|lia]].
  replace (Z.to_nat (fst s - pos)) with (S (Z.to_nat (fst s - (pos + 1)))) by lia.
  exact Hwin.
Qed.

Lemma nth_error_cons_shift (b : byte) (rest : bytes) (pos off : Z) (x : byte) :
  pos + 1 < off ->
  nth_error rest (Z.to_nat (off - (pos + 1) - 1)) = Some x ->
  nth_error (b :: rest) (Z.to_nat (off - pos - 1)) = Some x.
Proof.
  intros Hpos Hnth.
  replace (Z.to_nat (off - pos - 1))
    with (S (Z.to_nat (off - (pos + 1) - 1))) by lia.
  exact Hnth.
Qed.

(** The shape of what [iter_cstrings_raw] yields, offsets counted from
    [pos]: a first run at the start, then runs that each follow a
    delimiter, all of them bytes of the data where their offset says,
    offsets strictly ascending. *)
Lemma raw_runs_shape (data : bytes) (pos : Z) :
  exists first others,
    number_runs pos default_delimiter (split_from default_delimiter data 0)
    = (pos, first) :: others
    /\ lies_at data (0, first)
    /\ Forall (fun s => pos < fst s
                      /\ lies_at data (rebase pos s)
                      /\ nth_error data (Z.to_nat (fst s - pos - 1)) = Some x00)
         others
    /\ StronglySorted offset_lt ((pos, first) :: others).
Proof.
  revert pos. induction data as [|b rest IH]; intros pos.
  - exists [], []. unfold lies_at, window, blen. cbn.
    repeat split; try lia; repeat constructor.
  - rewrite split_from_default_cons.
    destruct (IH (pos + 1)) as (first & others & Hruns & Hfirst & Hothers & Hsorted).
    assert (Hshift : Forall (fun s => pos < fst s
                      /\ lies_at (b :: rest) (rebase pos s)
                      /\ nth_error (b :: rest) (Z.to_nat (fst s - pos - 1))
                         = Some x00) others).
    { eapply List.Forall_impl; [|exact Hothers]. cbn beta.
      intros s (Hlt & Hlies & Hnth). split; [lia|split].
      - apply lies_at_cons; [lia|exact Hlies].
      - apply nth_error_cons_shift; [lia|exact Hnth]. }
    apply StronglySorted_inv in Hsorted as [Hsorted Hhead].
    destruct (Byte.eqb x00 b) eqn:Hb.
    + apply Byte.byte_dec_bl in Hb. subst b.
      exists [], ((pos + 1, first) :: others).
      cbn [number_runs].
      change (pos + (blen [] + blen default_delimiter)) with (pos + 1).
      rewrite Hruns. split; [reflexivity|].
      split; [|split].
      * unfold lies_at, window; cbn [fst snd length firstn].
        rewrite blen_cons. unfold blen; cbn [length].
        repeat split; try reflexivity; lia.
      * constructor; [|exact Hshift]. cbn [fst snd].
        split; [lia|split].
        -- apply (lies_at_cons x00 rest pos (pos + 1, first)); cbn [fst]; [lia|].
           unfold rebase; cbn [fst snd].
           replace (pos + 1 - (pos + 1)) with 0 by lia. exact Hfirst.
        -- replace (pos + 1 - pos - 1) with 0 by lia. reflexivity.
      * constructor.
        -- constructor; assumption.
        -- constructor.
           ++ unfold offset_lt; cbn [fst]. lia.
           ++ eapply List.Forall_impl; [|exact Hshift].
              intros s (Hlt & _). unfold offset_lt; cbn [fst]. exact Hlt.
    + destruct (split_from default_delimiter rest 0) as [|run runs] eqn:Hsplit;
        [discriminate Hruns|].
      cbn [number_runs] in Hruns. injection Hruns as Hrun Htail. subst run.
      exists (b :: first), others.
      cbn [number_runs].
      replace (pos + (blen (b :: first) + blen default_delimiter))
        with (pos + 1 + (blen first + blen default_delimiter))
        by (rewrite blen_cons; lia).
      rewrite Htail. split; [reflexivity|].
      split; [|split].
      * destruct Hfirst as (_ & Hwin & Hlen). cbn [fst snd] in *.
        unfold lies_at, window in *; cbn [fst snd length].
        rewrite !blen_cons. split; [lia|split; [|lia]].
        change (Z.to_nat 0) with 0%nat in *. cbn [skipn firstn] in *.
        f_equal. exact Hwin.
      * exact Hshift.
      * constructor; [exact Hsorted|].
        eapply List.Forall_impl; [|exact Hshift].
        intros s (Hlt & _). unfold offset_lt; cbn [fst]. exact Hlt.
Qed.

Lemma StronglySorted_filter {X} (R : X -> X -> Prop) (f : X -> bool) (l : list X) :
  StronglySorted R l -> StronglySorted R (List.filter f l).
Proof.
  induction 1 as [|a l Hsorted IH Hall]; cbn [List.filter]; [constructor|].
  destruct (f a); [|exact IH].
  constructor; [exact IH|].
  rewrite List.Forall_forall in *. intros x Hx.
  apply filter_In in Hx as [Hx _]. now apply Hall.
Qed.

(** What [iter_cstrings_raw] yields at the default delimiter. *)
Lemma raw_cstrings_faithful (image : bytes) :
  let raw := number_runs 0 default_delimiter
               (split_from default_delimiter image 0) in
  (forall s, In s raw ->
     lies_at image s /\ (fst s = 0 \/ after_delimiter image (fst s)))
  /\ StronglySorted offset_lt raw.
Proof.
  destruct (raw_runs_shape image 0)
    as (first & others & Hruns & Hfirst & Hothers & Hsorted).
  cbn zeta. rewrite Hruns. split; [|exact Hsorted].
  intros s [<-|Hin].
  - split; [exact Hfirst|left; reflexivity].
  - rewrite List.Forall_forall in Hothers.
    destruct (Hothers s Hin) as (Hpos & Hlies & Hnth).
    unfold rebase in Hlies. rewrite Z.sub_0_r in Hlies, Hnth.
    destruct s as [off str]. split; [exact Hlies|].
    right. split; [exact Hpos|exact Hnth].
Qed.

(** C10: every string [iter_cstrings] yields is the bytes of the image
    at [offset, offset + length), so it ends within the image; the
    offsets are strictly ascending in the order of yield; and each offset
    is 0 or the position just after a delimiter byte. *)
Theorem iter_cstrings_faithful (image : bytes) (threshold : Z) :
  exists out,
    run (iter_cstrings threshold) image = Returns out
    /\ (forall off str, In (off, str) out ->
          0 <= off
          /\ str = firstn (length str) (skipn (Z.to_nat off) image)
          /\ off + blen str <= blen image
          /\ (off = 0
              \/ 0 < off /\ nth_error image (Z.to_nat (off - 1)) = Some x00))
    /\ StronglySorted (fun s1 s2 : cstring => fst s1 < fst s2) out.
Proof.
  eexists. unfold run. rewrite iter_cstrings_unfold.
  split; [reflexivity|].
  destruct (raw_cstrings_faithful image) as [Hall Hsorted].
  cbn zeta in Hall, Hsorted. cbn [Stream.open Stream.content].
  split.
  - intros off str Hin. apply filter_In in Hin as [Hin _].
    destruct (Hall _ Hin) as [(H0 & Hwin & Hlen) Hdelim].
    cbn [fst snd] in *. repeat split; try assumption.
  - apply StronglySorted_filter. exact Hsorted.
Qed.

(** ** The counter *)

Section Counter.
Implicit Types (c : counter) (k key n : Z).

Lemma counter_get_set c key n k :
  counter_get (counter_set c key n) k
  = if key =? k then n else counter_get c k.
Proof.
  induction c as [|[k0 m] c IH]; cbn [counter_set counter_get].
  - reflexivity.
  - destruct (Z.eqb_spec k0 key) as [->|Hne]; cbn [counter_get].
    + destruct (Z.eqb_spec key k); reflexivity.
    + rewrite IH. destruct (Z.eqb_spec k0 k) as [->|]; [|reflexivity].
      destruct (Z.eqb_spec key k); [congruence|reflexivity].
Qed.

Lemma counter_get_add c key n k :
  counter_get (counter_add c key n) k
  = counter_get c k + (if key =? k then n else 0).
Proof.
  unfold counter_add. rewrite counter_get_set.
  destruct (Z.eqb_spec key k) as [->|]; lia.
Qed.

Lemma counter_keys_set c key n k :
  In k (counter_keys (counter_set c key n)) <-> k = key \/ In k (counter_keys c).
Proof.
  unfold counter_keys.
  induction c as [|[k0 m] c IH]; cbn [counter_set map fst In].
  - intuition.
  - destruct (Z.eqb_spec k0 key) as [->|Hne]; cbn [map fst In].
    + intuition.
    + rewrite IH. intuition.
Qed.

Lemma counter_keys_set_NoDup c key n :
  List.NoDup (counter_keys c) -> List.NoDup (counter_keys (counter_set c key n)).
Proof.
  unfold counter_keys.
  induction c as [|[k0 m] c IH]; cbn [counter_set map fst]; intros Hnd.
  - constructor; [intros []|constructor].
  - apply List.NoDup_cons_iff in Hnd as [Hnotin Hnd].
    destruct (Z.eqb_spec k0 key) as [->|Hne]; cbn [map fst].
    + constructor; assumption.
    + constructor; [|auto].
      intros Hin. apply (counter_keys_set c key n k0) in Hin as [?|?]; auto.
Qed.

Lemma counter_get_missing c k :
  ~ In k (counter_keys c) -> counter_get c k = 0.
Proof.
  unfold counter_keys.
  induction c as [|[k0 m] c IH]; cbn [counter_get map fst In]; intros Hnotin.
  - reflexivity.
  - destruct (Z.eqb_spec k0 k); [tauto|]. apply IH. tauto.
Qed.

Lemma counter_total_set c key n :
  counter_total (counter_set c key n)
  = counter_total c - counter_get c key + n.
Proof.
  unfold counter_total.
  induction c as [|[k0 m] c IH]; cbn [counter_set counter_get fold_right snd].
  - lia.
  - destruct (Z.eqb_spec k0 key); cbn [fold_right snd]; lia.
Qed.

Lemma counter_total_add c key n :
  counter_total (counter_add c key n) = counter_total c + n.
Proof. unfold counter_add. rewrite counter_total_set. lia. Qed.

(** The items of a counter with no key twice are its keys with their
    counts. *)
Lemma counter_items c k n :
  List.NoDup (counter_keys c) ->
  In (k, n) c <-> In k (counter_keys c) /\ counter_get c k = n.
Proof.
  unfold counter_keys.
  induction c as [|[k0 m] c IH]; cbn [counter_get map fst In]; intros Hnd.
  - tauto.
  - apply List.NoDup_cons_iff in Hnd as [Hnotin Hnd].
    destruct (Z.eqb_spec k0 k) as [->|Hne].
    + split.
      * intros [Heq|Hin]; [injection Heq as ->; auto|].
        exfalso. apply Hnotin. apply (in_map fst) in Hin. exact Hin.
      * intros [_ ->]. left. reflexivity.
    + rewrite (IH Hnd). split.
      * intros [Heq|H]; [congruence|tauto].
      * intros [[?|?] ?]; [congruence|tauto].
Qed.

Lemma well_formed_add c key n :
  0 <= key -> 0 < n -> well_formed c -> well_formed (counter_add c key n).
Proof.
  intros Hkey Hn [Hnd Hpos]. split.
  - apply counter_keys_set_NoDup, Hnd.
  - intros k Hin. rewrite counter_get_add.
    apply counter_keys_set in Hin.
    destruct (Z.eqb_spec key k) as [->|Hne].
    + split; [exact Hkey|].
      destruct (in_dec Z.eq_dec k (counter_keys c)) as [Hold|Hnew].
      * destruct (Hpos k Hold). lia.
      * rewrite (counter_get_missing c k Hnew). lia.
    + destruct Hin as [->|Hold]; [congruence|].
      destruct (Hpos k Hold). split; lia.
Qed.

(** In a well-formed counter the keys are the bases with a count. *)
Lemma well_formed_keys c k :
  well_formed c -> In k (counter_keys c) <-> 0 < counter_get c k.
Proof.
  intros [Hnd Hpos]. split.
  - intros Hin. now apply Hpos.
  - intros Hget.
    destruct (in_dec Z.eq_dec k (counter_keys c)) as [Hin|Hnotin]; [exact Hin|].
    rewrite (counter_get_missing c k Hnotin) in Hget. lia.
Qed.

(** Two well-formed counters with the same counts hold the same items. *)
Lemma well_formed_same_counts c1 c2 :
  well_formed c1 -> well_formed c2 ->
  (forall k, counter_get c1 k = counter_get c2 k) ->
  Permutation c1 c2.
Proof.
  intros Hwf1 Hwf2 Hsame.
  apply Permutation.NoDup_Permutation.
  - eapply List.NoDup_map_inv. apply Hwf1.
  - eapply List.NoDup_map_inv. apply Hwf2.
  - intros [k n].
    rewrite (counter_items c1 k n) by apply Hwf1.
    rewrite (counter_items c2 k n) by apply Hwf2.
    rewrite !well_formed_keys by assumption.
    rewrite Hsame. reflexivity.
Qed.
End Counter.

(** ** The voting loops *)

Section Vote.
Variable M : gmap Z (list cstring).
Variable MASK : Z.
Implicit Types (c : counter) (s : cstring) (bucket : list cstring).

Lemma vote_string_get chk w c s b :
  counter_get (vote_string chk w c s) b
  = counter_get c b
    + (if (0 <=? chk - fst s) && (chk - fst s =? b) then w else 0).
Proof.
  unfold vote_string.
  destruct (Z.ltb_spec (chk - fst s) 0) as [Hneg|Hpos];
    destruct (Z.leb_spec 0 (chk - fst s)); try lia; cbn [andb].
  - lia.
  - apply counter_get_add.
Qed.

Lemma bucket_get chk w bucket c b :
  counter_get (fold_left (vote_string chk w) bucket c) b
  = counter_get c b + w * Z.of_nat (length (pairs_for chk b bucket)).
Proof.
  revert c. unfold pairs_for.
  induction bucket as [|s bucket IH]; intros c; cbn [fold_left List.filter].
  - cbn [length]. lia.
  - rewrite IH, vote_string_get.
    destruct ((0 <=? chk - fst s) && (chk - fst s =? b)); cbn [length]; lia.
Qed.

Lemma bucket_total chk w bucket c :
  counter_total (fold_left (vote_string chk w) bucket c)
  = counter_total c + w * Z.of_nat (length (pairs_of chk bucket)).
Proof.
  revert c. unfold pairs_of.
  induction bucket as [|s bucket IH]; intros c; cbn [fold_left List.filter].
  - cbn [length]. lia.
  - rewrite IH. unfold vote_string.
    destruct (Z.ltb_spec (chk - fst s) 0) as [Hneg|Hpos];
      destruct (Z.leb_spec 0 (chk - fst s)); try lia.
    rewrite counter_total_add. cbn [length]. lia.
Qed.

Lemma bucket_well_formed chk w bucket c :
  0 < w -> well_formed c ->
  well_formed (fold_left (vote_string chk w) bucket c).
Proof.
  intros Hw. revert c.
  induction bucket as [|s bucket IH]; intros c Hwf; cbn [fold_left].
  - exact Hwf.
  - apply IH. unfold vote_string.
    destruct (Z.ltb_spec (chk - fst s) 0); [exact Hwf|].
    apply well_formed_add; assumption || lia.
Qed.

Lemma vote_get c chk b :
  counter_get (vote M MASK c chk) b = counter_get c b + weight M MASK chk b.
Proof.
  unfold vote, weight.
  destruct (M !! Z.land chk MASK) as [bucket|]; [apply bucket_get|lia].
Qed.

Lemma vote_well_formed c chk :
  well_formed c -> well_formed (vote M MASK c chk).
Proof.
  intros Hwf. unfold vote.
  destruct (M !! Z.land chk MASK) as [[|s bucket]|]; try exact Hwf.
  apply bucket_well_formed; [cbn [length]; lia|exact Hwf].
Qed.

Lemma weight_nonneg chk b : 0 <= weight M MASK chk b.
Proof.
  unfold weight. destruct (M !! Z.land chk MASK); lia.
Qed.

Lemma votes_from_get chunks c b :
  counter_get (fold_left (vote M MASK) chunks c) b
  = counter_get c b + sum_Z (map (fun chk => weight M MASK chk b) chunks).
Proof.
  revert c. induction chunks as [|chk chunks IH]; intros c;
    cbn [fold_left map sum_Z fold_right].
  - lia.
  - rewrite IH, vote_get. fold (sum_Z (map (fun chk => weight M MASK chk b) chunks)).
    lia.
Qed.

Lemma votes_get chunks b :
  counter_get (votes M MASK chunks) b
  = sum_Z (map (fun chk => weight M MASK chk b) chunks).
Proof. unfold votes. rewrite votes_from_get. reflexivity. Qed.

Lemma votes_from_well_formed chunks c :
  well_formed c -> well_formed (fold_left (vote M MASK) chunks c).
Proof.
  revert c. induction chunks as [|chk chunks IH]; intros c Hwf; cbn [fold_left].
  - exact Hwf.
  - apply IH, vote_well_formed, Hwf.
Qed.

Lemma well_formed_empty : well_formed [].
Proof. split; [constructor|intros k []]. Qed.

Lemma votes_well_formed chunks : well_formed (votes M MASK chunks).
Proof. apply votes_from_well_formed, well_formed_empty. Qed.

Lemma sum_weights_nonneg chunks b :
  0 <= sum_Z (map (fun chk => weight M MASK chk b) chunks).
Proof.
  induction chunks as [|chk chunks IH]; cbn [map sum_Z fold_right]; [lia|].
  fold (sum_Z (map (fun chk => weight M MASK chk b) chunks)).
  pose proof (weight_nonneg chk b). lia.
Qed.

Lemma sum_weights_member chunks chk b :
  In chk chunks ->
  weight M MASK chk b <= sum_Z (map (fun chk => weight M MASK chk b) chunks).
Proof.
  induction chunks as [|chk0 chunks IH]; cbn [map sum_Z fold_right In]; [tauto|].
  fold (sum_Z (map (fun chk => weight M MASK chk b) chunks)).
  pose proof (weight_nonneg chk0 b).
  pose proof (sum_weights_nonneg chunks b).
  intros [->|Hin]; [lia|]. specialize (IH Hin). lia.
Qed.
End Vote.

Lemma sum_Z_permutation (l1 l2 : list Z) :
  Permutation l1 l2 -> sum_Z l1 = sum_Z l2.
Proof.
  unfold sum_Z. induction 1; cbn [fold_right] in *; lia.
Qed.

(** ** The index *)

Lemma index_add_insert (MASK : Z) (M : gmap Z (list cstring)) (s : cstring) :
  index_add MASK M s
  = <[Z.land (fst s) MASK :=
        default [] (M !! Z.land (fst s) MASK) ++ [s]]> M.
Proof.
  unfold index_add.
  destruct (M !! Z.land (fst s) MASK) as [bucket|] eqn:Hlookup.
  - rewrite Hlookup. reflexivity.
  - rewrite lookup_insert_eq, insert_insert_eq. reflexivity.
Qed.

(** Every bucket of the index holds, in order, the strings whose masked
    offset is its key; there is no empty bucket. *)
Lemma build_index_lookup (MASK : Z) (strs : list cstring) (k : Z) :
  build_index MASK strs !! k
  = match bucket_of MASK strs k with
    | [] => None
    | s :: bucket => Some (s :: bucket)
    end.
Proof.
  unfold build_index, bucket_of.
  induction strs as [|s strs IH] using rev_ind.
  - cbn. apply lookup_empty.
  - rewrite fold_left_app, List.filter_app. cbn [fold_left List.filter].
    rewrite index_add_insert.
    destruct (Z.eqb_spec (Z.land (fst s) MASK) k) as [->|Hne].
    + rewrite lookup_insert_eq, IH. unfold cstring in *.
      destruct (List.filter _ strs) as [|s0 bucket]; reflexivity.
    + rewrite lookup_insert_ne by exact Hne.
      rewrite app_nil_r. exact IH.
Qed.

Lemma build_index_bucket (MASK : Z) (strs : list cstring) (s : cstring) :
  In s strs ->
  exists bucket,
    build_index MASK strs !! Z.land (fst s) MASK = Some bucket
    /\ In s bucket.
Proof.
  intros Hin. rewrite build_index_lookup.
  assert (Hs : In s (bucket_of MASK strs (Z.land (fst s) MASK))).
  { apply filter_In. split; [exact Hin|apply Z.eqb_refl]. }
  destruct (bucket_of MASK strs (Z.land (fst s) MASK)) as [|s0 bucket];
    [destruct Hs|].
  eexists. split; [reflexivity|exact Hs].
Qed.

Lemma build_index_member (MASK : Z) (strs : list cstring) (k : Z)
    (bucket : list cstring) (s : cstring) :
  build_index MASK strs !! k = Some bucket -> In s bucket ->
  In s strs /\ Z.land (fst s) MASK = k.
Proof.
  rewrite build_index_lookup. intros Hlookup Hin.
  assert (Hs : In s (bucket_of MASK strs k)).
  { destruct (bucket_of MASK strs k); [discriminate|].
    injection Hlookup as <-. exact Hin. }
  apply filter_In in Hs as [Hs Hk]. split; [exact Hs|]. now apply Z.eqb_eq.
Qed.

(** ** scan_file as a whole *)

Lemma make_mask_ones (mask : Z) :
  0 <= mask -> make_mask mask = Returns (Z.ones mask).
Proof.
  intros Hmask. unfold make_mask.
  destruct (Z.ltb_spec mask 0); [lia|].
  unfold Z.ones. rewrite <- Z.sub_1_r. reflexivity.
Qed.

(** With a mask width that is not negative, a positive pointer size and
    fuel for one round more than the image has whole windows, the scan
    returns the votes of the pointer words of the image against the
    index of its strings. *)
Lemma scan_file_returns (image : bytes) (fuel : nat) (endian : byteorder)
    (pointer_size mask : Z) :
  0 <= mask -> 0 < pointer_size ->
  blen image / pointer_size < Z.of_nat fuel ->
  exists strs chunks,
    run (iter_cstrings default_threshold) image = Returns strs
    /\ run (chunkify fuel pointer_size endian) image = Returns chunks
    /\ chunks = decoded_windows image 0 (Z.to_nat pointer_size) endian
    /\ run (scan_file fuel endian pointer_size mask) image
       = Returns (votes (build_index (Z.ones mask) strs) (Z.ones mask) chunks).
Proof.
  intros Hmask Hsize Hfuel.
  set (n := Z.to_nat pointer_size).
  assert (Hps : pointer_size = Z.of_nat n) by lia.
  destruct (chunkify_from image endian n fuel 0) as [s' Hchunks]; [lia| |].
  { rewrite Nat.sub_0_r. apply Nat2Z.inj_lt. rewrite Nat2Z.inj_div.
    unfold blen in Hfuel. rewrite <- Hps. exact Hfuel. }
  eexists _, _. unfold run, scan_file, Stream.open.
  rewrite iter_cstrings_unfold. cbn [result_of Stream.content].
  split; [reflexivity|].
  rewrite Hps, Hchunks. cbn [result_of].
  split; [reflexivity|]. split; [reflexivity|].
  unfold bind at 1, lift. rewrite make_mask_ones by exact Hmask.
  unfold bind at 1. rewrite iter_cstrings_unfold.
  unfold bind at 1, seek. cbn [Stream.content].
  unfold bind at 1. rewrite Hchunks. reflexivity.
Qed.

(** Whenever the scan returns, it returns the votes of the pointer words
    against the index of the strings. *)
Lemma scan_file_inversion (image : bytes) (fuel : nat) (endian : byteorder)
    (pointer_size mask : Z) (c : counter) :
  run (scan_file fuel endian pointer_size mask) image = Returns c ->
  exists MASK strs chunks,
    make_mask mask = Returns MASK
    /\ run (iter_cstrings default_threshold) image = Returns strs
    /\ run (chunkify fuel pointer_size endian) image = Returns chunks
    /\ c = votes (build_index MASK strs) MASK chunks.
Proof.
  unfold run, scan_file, Stream.open.
  unfold bind at 1, lift.
  destruct (make_mask mask) as [MASK| |]; try discriminate.
  unfold bind at 1. rewrite iter_cstrings_unfold.
  unfold bind at 1, seek. cbn [Stream.content].
  unfold bind at 1.
  destruct (chunkify fuel pointer_size endian (Stream.mk image 0))
    as [[chunks s']| |] eqn:Hchunks; try discriminate.
  cbn [ret result_of]. intros Hc. injection Hc as <-.
  eexists MASK, _, chunks. repeat split; reflexivity.
Qed.

Lemma well_formed_keys_nonneg (c : counter) :
  well_formed c -> Forall (fun kv => 0 <= fst kv) c.
Proof.
  intros [_ Hpos]. apply List.Forall_forall. intros [k n] Hin.
  apply Hpos. apply (in_map fst) in Hin. exact Hin.
Qed.

(** C7: every key of the counter that the scan returns is a non-negative
    integer, and a pair of a pointer and a string whose difference
    value - offset is negative leaves the counter as it was: no vote, no
    new entry. *)
Theorem scan_file_bases_nonneg (image : bytes) (fuel : nat)
    (endian : byteorder) (pointer_size mask : Z) (c : counter)
    (Hscan : run (scan_file fuel endian pointer_size mask) image = Returns c) :
  Forall (fun kv => 0 <= fst kv) c
  /\ forall (chk weight : Z) (c' : counter) (s : cstring),
       chk - fst s < 0 -> vote_string chk weight c' s = c'.
Proof.
  split.
  - apply scan_file_inversion in Hscan
      as (MASK & strs & chunks & _ & _ & _ & ->).
    apply well_formed_keys_nonneg, votes_well_formed.
  - intros chk weight c' s Hneg. unfold vote_string.
    destruct (Z.ltb_spec (chk - fst s) 0); [reflexivity|lia].
Qed.

Lemma scan_file_bases_nonneg_witness :
  Forall (fun kv => 0 <= fst kv) [(4096, 1)]
  /\ forall (chk weight : Z) (c' : counter) (s : cstring),
       chk - fst s < 0 -> vote_string chk weight c' s = c'.
Proof.
  apply (scan_file_bases_nonneg hello_image 5 little 4 12 [(4096, 1)]).
  vm_compute. reflexivity.
Defined.

(** ** Accumulation *)

Lemma vote_string_keeps_keys chk w (c : counter) (s : cstring) (k : Z) :
  In k (counter_keys c) -> In k (counter_keys (vote_string chk w c s)).
Proof.
  intros Hin. unfold vote_string, counter_add.
  destruct (chk - fst s <? 0); [exact Hin|].
  apply counter_keys_set. right. exact Hin.
Qed.

Lemma vote_keeps_keys (M : gmap Z (list cstring)) (MASK : Z)
    (c : counter) (chk k : Z) :
  In k (counter_keys c) -> In k (counter_keys (vote M MASK c chk)).
Proof.
  unfold vote. destruct (M !! Z.land chk MASK) as [bucket|]; [|tauto].
  generalize (Z.of_nat (length bucket)) as w. intros w.
  revert c. induction bucket as [|s bucket IH]; intros c Hin; cbn [fold_left].
  - exact Hin.
  - apply IH, vote_string_keeps_keys, Hin.
Qed.

Lemma vote_never_decrements (M : gmap Z (list cstring)) (MASK : Z)
    (c : counter) (chk b : Z) :
  counter_get c b <= counter_get (vote M MASK c chk) b.
Proof.
  rewrite vote_get. pose proof (weight_nonneg M MASK chk b). lia.
Qed.

(** The votes of a sequence of pointer words do not depend on its order. *)
Lemma votes_permutation (M : gmap Z (list cstring)) (MASK : Z)
    (chunks chunks' : list Z) :
  Permutation chunks chunks' ->
  Permutation (votes M MASK chunks) (votes M MASK chunks')
  /\ forall b, counter_get (votes M MASK chunks) b
               = counter_get (votes M MASK chunks') b.
Proof.
  intros Hperm.
  assert (Hsame : forall b, counter_get (votes M MASK chunks) b
                            = counter_get (votes M MASK chunks') b).
  { intros b. rewrite !votes_get.
    apply sum_Z_permutation, Permutation_map, Hperm. }
  split; [|exact Hsame].
  apply well_formed_same_counts; [apply votes_well_formed ..|exact Hsame].
Qed.

(** C8: the counts are pure accumulations.  When the scan returns, its
    counter is the votes of the pointer words of the image; the votes of
    any permutation of those pointer words are the same table (the same
    items, so the same keys with the same counts); and a step of the
    voting loop neither lowers a count nor drops a key. *)
Theorem scan_file_order_independent (image : bytes) (fuel : nat)
    (endian : byteorder) (pointer_size mask : Z) (c : counter)
    (Hscan : run (scan_file fuel endian pointer_size mask) image = Returns c) :
  exists MASK strs chunks,
    make_mask mask = Returns MASK
    /\ run (iter_cstrings default_threshold) image = Returns strs
    /\ run (chunkify fuel pointer_size endian) image = Returns chunks
    /\ c = votes (build_index MASK strs) MASK chunks
    /\ (forall chunks', Permutation chunks chunks' ->
          Permutation c (votes (build_index MASK strs) MASK chunks')
          /\ forall b, counter_get c b
                       = counter_get
                           (votes (build_index MASK strs) MASK chunks') b)
    /\ (forall (c0 : counter) (chk b : Z),
          counter_get c0 b
          <= counter_get (vote (build_index MASK strs) MASK c0 chk) b
          /\ (In b (counter_keys c0) ->
              In b (counter_keys
                      (vote (build_index MASK strs) MASK c0 chk)))).
Proof.
  apply scan_file_inversion in Hscan
    as (MASK & strs & chunks & Hmask & Hstrs & Hchunks & ->).
  exists MASK, strs, chunks.
  repeat (split; [assumption || reflexivity|]).
  split.
  - intros chunks' Hperm. now apply votes_permutation.
  - intros c0 chk b. split.
    + apply vote_never_decrements.
    + apply vote_keeps_keys.
Qed.

Lemma scan_file_order_independent_witness :
  exists MASK strs chunks,
    make_mask 12 = Returns MASK
    /\ run (iter_cstrings default_threshold) hello_image = Returns strs
    /\ run (chunkify 5 4 little) hello_image = Returns chunks
    /\ [(4096, 1)] = votes (build_index MASK strs) MASK chunks
    /\ (forall chunks', Permutation chunks chunks' ->
          Permutation [(4096, 1)] (votes (build_index MASK strs) MASK chunks')
          /\ forall b, counter_get [(4096, 1)] b
                       = counter_get
                           (votes (build_index MASK strs) MASK chunks') b)
    /\ (forall (c0 : counter) (chk b : Z),
          counter_get c0 b
          <= counter_get (vote (build_index MASK strs) MASK c0 chk) b
          /\ (In b (counter_keys c0) ->
              In b (counter_keys
                      (vote (build_index MASK strs) MASK c0 chk)))).
Proof.
  apply (scan_file_order_independent hello_image 5 little 4 12 [(4096, 1)]).
  vm_compute. reflexivity.
Defined.

(** ** Pointers to strings *)

Lemma land_ones_aligned (base off mask : Z) :
  0 <= mask -> base mod 2 ^ mask = 0 ->
  Z.land (base + off) (Z.ones mask) = Z.land off (Z.ones mask).
Proof.
  intros Hmask Hbase. rewrite !Z.land_ones by exact Hmask.
  rewrite <- Zplus_mod_idemp_l, Hbase. reflexivity.
Qed.

Lemma decoded_windows_member (image : bytes) (n i : nat) (endian : byteorder) :
  (0 < n)%nat -> ((i + 1) * n <= length image)%nat ->
  In (int_from_bytes (window image (i * n) n) endian)
     (decoded_windows image 0 n endian).
Proof.
  intros Hn Hi. unfold decoded_windows.
  apply in_map_iff. exists i. split; [reflexivity|].
  apply in_seq. split; [lia|]. rewrite Nat.sub_0_r. cbn [Nat.add].
  apply Nat.div_le_lower_bound; lia.
Qed.

Lemma weight_of_pair (M : gmap Z (list cstring)) (MASK chk : Z)
    (bucket : list cstring) (s : cstring) :
  M !! Z.land chk MASK = Some bucket -> In s bucket -> 0 <= chk - fst s ->
  Z.of_nat (length bucket) <= weight M MASK chk (chk - fst s).
Proof.
  intros Hlookup Hin Hbase. unfold weight. rewrite Hlookup.
  assert (Hs : In s (pairs_for chk (chk - fst s) bucket)).
  { apply filter_In. split; [exact Hin|].
    apply andb_true_iff. split; [now apply Z.leb_le|apply Z.eqb_refl]. }
  destruct (pairs_for chk (chk - fst s) bucket); [destruct Hs|].
  cbn [length]. nia.
Qed.

(** C1, amended: when the image holds, at an offset that is a multiple of
    the pointer size, a pointer word whose decoded value is
    base + s.offset for a string s that [iter_cstrings] yields, with base
    not negative and a multiple of 2 ^ mask, the scan with that mask,
    pointer size and byte order returns a counter in which base is a key
    with a count above zero. *)
Theorem scan_file_finds_aligned_base (image : bytes) (fuel : nat)
    (endian : byteorder) (pointer_size mask : Z)
    (base off : Z) (str : bytes) (strs : list cstring) (i : nat)
    (Hmask : 0 <= mask) (Hsize : 0 < pointer_size)
    (Hfuel : blen image / pointer_size < Z.of_nat fuel)
    (Hstrs : run (iter_cstrings default_threshold) image = Returns strs)
    (Hstr : In (off, str) strs)
    (Hword : (Z.of_nat i + 1) * pointer_size <= blen image)
    (Hvalue : int_from_bytes
                (window image (i * Z.to_nat pointer_size)
                   (Z.to_nat pointer_size)) endian
              = base + off)
    (Hbase : 0 <= base)
    (Haligned : base mod 2 ^ mask = 0) :
  exists c,
    run (scan_file fuel endian pointer_size mask) image = Returns c
    /\ In base (counter_keys c)
    /\ 0 < counter_get c base.
Proof.
  destruct (scan_file_returns image fuel endian pointer_size mask
              Hmask Hsize Hfuel)
    as (strs' & chunks & Hstrs' & _ & Hchunks & Hscan).
  rewrite Hstrs in Hstrs'. injection Hstrs' as <-.
  eexists. split; [exact Hscan|].
  set (M := build_index (Z.ones mask) strs) in *.
  assert (Hcount : 0 < counter_get (votes M (Z.ones mask) chunks) base).
  { destruct (build_index_bucket (Z.ones mask) strs (off, str) Hstr)
      as (bucket & Hlookup & Hin).
    fold M in Hlookup. cbn [fst] in Hlookup.
    rewrite <- (land_ones_aligned base off mask Hmask Haligned) in Hlookup.
    pose proof (weight_of_pair M (Z.ones mask) (base + off) bucket (off, str)
                  Hlookup Hin) as Hweight.
    cbn [fst] in Hweight.
    replace (base + off - off) with base in Hweight by lia.
    specialize (Hweight Hbase).
    assert (Hmember : In (base + off) chunks).
    { rewrite Hchunks, <- Hvalue. apply decoded_windows_member; [lia|].
      unfold blen in Hword. nia. }
    pose proof (sum_weights_member M (Z.ones mask) chunks (base + off) base
                  Hmember) as Hsum.
    rewrite votes_get.
    destruct bucket; [destruct Hin|]. cbn [length] in Hweight. lia. }
  split; [|exact Hcount].
  apply well_formed_keys; [apply votes_well_formed|exact Hcount].
Qed.

Lemma scan_file_finds_aligned_base_witness :
  exists c,
    run (scan_file 5 little 4 12) hello_image = Returns c
    /\ In 4096 (counter_keys c)
    /\ 0 < counter_get c 4096.
Proof.
  apply (scan_file_finds_aligned_base hello_image 5 little 4 12
           4096 1 (list_byte_of_string "HELLOWORLD")
           [(1, list_byte_of_string "HELLOWORLD")] 3).
  - lia.
  - lia.
  - vm_compute. reflexivity.
  - vm_compute. reflexivity.
  - left. reflexivity.
  - vm_compute. discriminate.
  - vm_compute. reflexivity.
  - lia.
  - vm_compute. reflexivity.
Defined.

(** C1 as first stated fails when the base is not a multiple of
    2 ^ mask: the image holds the string HELLOWORLD at offset 1 and, at
    offset 12, the pointer word 0x1002 = 0x1001 + 1, yet the scan with
    mask 12 returns an empty counter, so base 0x1001 is not a key. *)
Lemma scan_file_misses_unaligned_base :
  run (iter_cstrings default_threshold) unaligned_image
  = Returns [(1, list_byte_of_string "HELLOWORLD")]
  /\ int_from_bytes (window unaligned_image (3 * 4) 4) little = 4097 + 1
  /\ 0 <= 4097
  /\ run (scan_file 5 little 4 12) unaligned_image = Returns [].
Proof.
  repeat split; try (vm_compute; reflexivity). lia.
Qed.

(** ** The weight of a vote *)

Lemma no_offset_no_pair (bucket : list cstring) (off : Z) :
  ~ In off (map fst bucket) ->
  List.filter (fun s' : cstring => fst s' =? off) bucket = [].
Proof.
  induction bucket as [|a bucket IH]; cbn [map In List.filter]; intros Hnotin.
  - reflexivity.
  - destruct (Z.eqb_spec (fst a) off); [tauto|]. apply IH. tauto.
Qed.

Lemma one_string_per_offset (bucket : list cstring) (s : cstring) :
  List.NoDup (map fst bucket) -> In s bucket ->
  length (List.filter (fun s' : cstring => fst s' =? fst s) bucket) = 1%nat.
Proof.
  induction bucket as [|a bucket IH]; cbn [map In List.filter]; intros Hnd Hin.
  - destruct Hin.
  - apply List.NoDup_cons_iff in Hnd as [Hnotin Hnd].
    destruct Hin as [->|Hin].
    + rewrite Z.eqb_refl, no_offset_no_pair by exact Hnotin. reflexivity.
    + destruct (Z.eqb_spec (fst a) (fst s)) as [Heq|Hne].
      * exfalso. apply Hnotin. rewrite Heq. now apply in_map.
      * now apply IH.
Qed.

Lemma pairs_for_own_base (chk : Z) (bucket : list cstring) (s : cstring) :
  0 <= chk - fst s ->
  pairs_for chk (chk - fst s) bucket
  = List.filter (fun s' : cstring => fst s' =? fst s) bucket.
Proof.
  intros Hbase. unfold pairs_for. apply filter_ext. intros s'.
  destruct (Z.eqb_spec (fst s') (fst s)) as [Heq|Hne].
  - rewrite Heq, Z.eqb_refl, andb_true_r. now apply Z.leb_le.
  - destruct (Z.eqb_spec (chk - fst s') (chk - fst s)); [lia|].
    apply andb_false_r.
Qed.

Lemma iter_cstrings_sorted (image : bytes) (threshold : Z)
    (strs : list cstring) :
  run (iter_cstrings threshold) image = Returns strs ->
  StronglySorted offset_lt strs.
Proof.
  unfold run. rewrite iter_cstrings_unfold. cbn [result_of].
  intros Hstrs. injection Hstrs as <-.
  apply StronglySorted_filter, raw_cstrings_faithful.
Qed.

(** The buckets of the index of a scan hold no offset twice. *)
Lemma index_buckets_distinct (image : bytes) (threshold MASK k : Z)
    (strs bucket : list cstring) :
  run (iter_cstrings threshold) image = Returns strs ->
  build_index MASK strs !! k = Some bucket ->
  List.NoDup (map fst bucket).
Proof.
  intros Hstrs Hlookup.
  pose proof (iter_cstrings_sorted image threshold strs Hstrs) as Hsorted.
  assert (Hbucket : bucket = bucket_of MASK strs k).
  { rewrite build_index_lookup in Hlookup.
    destruct (bucket_of MASK strs k); [discriminate|congruence]. }
  subst bucket. unfold bucket_of.
  apply (StronglySorted_filter _ (fun s => Z.land (fst s) MASK =? k)) in Hsorted.
  induction Hsorted as [|a l Hl IH Hall]; cbn [map]; constructor.
  - intros Hin. apply in_map_iff in Hin as (s' & Heq & Hs').
    rewrite List.Forall_forall in Hall. specialize (Hall s' Hs').
    unfold offset_lt in Hall. lia.
  - exact IH.
Qed.

(** One step of the voting loop, on a pointer word whose masked low
    bits select a bucket of k strings: the count of every base b grows by
    k for each string of the bucket with value - offset = b >= 0; the
    counts grow by k * j in total, j being the number of strings of the
    bucket whose base is not negative; in a bucket with no offset twice
    the count of the base of one pair grows by exactly k; no count goes
    down. *)
Lemma vote_adds_bucket_size (M : gmap Z (list cstring)) (MASK : Z)
    (c : counter) (chk : Z) (bucket : list cstring)
    (Hbucket : M !! Z.land chk MASK = Some bucket) :
  (forall b,
     counter_get (vote M MASK c chk) b
     = counter_get c b
       + Z.of_nat (length bucket) * Z.of_nat (length (pairs_for chk b bucket)))
  /\ counter_total (vote M MASK c chk)
     = counter_total c
       + Z.of_nat (length bucket) * Z.of_nat (length (pairs_of chk bucket))
  /\ (forall s, In s bucket -> 0 <= chk - fst s ->
        List.NoDup (map fst bucket) ->
        counter_get (vote M MASK c chk) (chk - fst s)
        = counter_get c (chk - fst s) + Z.of_nat (length bucket))
  /\ (forall b, counter_get c b <= counter_get (vote M MASK c chk) b).
Proof.
  assert (Hget : forall b,
     counter_get (vote M MASK c chk) b
     = counter_get c b
       + Z.of_nat (length bucket) * Z.of_nat (length (pairs_for chk b bucket))).
  { intros b. rewrite vote_get. unfold weight. rewrite Hbucket. reflexivity. }
  split; [exact Hget|]. split; [|split].
  - unfold vote. rewrite Hbucket. apply bucket_total.
  - intros s Hin Hbase Hnd.
    rewrite Hget, pairs_for_own_base by exact Hbase.
    rewrite one_string_per_offset by assumption. lia.
  - intros b. apply vote_never_decrements.
Qed.

(** C2 as first stated fails twice.  The weight: [twin_image] is
    [twin_body] with the pointer word 0x1010 added, which forms one pair
    with each of the two strings of bucket 0 (mask 4); the bases 0x1010
    and 0x1000 go from no vote to 2 votes each, 4 in total, where one
    vote a pair would give 1 and 1.  The image: in [open_image] the
    pointer word 0x2004 and the string at offset 4 give base 0x2000 one
    vote; adding at the end the pointer word 0x1004 = 0x1000 + 4, which
    correlates with the same string, joins its bytes to the string, that
    is then no candidate any more: no base has a vote left, and the count
    of 0x2000 has gone down from 1 to 0. *)
Lemma added_pair_counts_differ :
  (twin_body ++ [x10; x10; x00; x00] = twin_image
   /\ run (iter_cstrings default_threshold) twin_body = Returns twin_strings
   /\ run (iter_cstrings default_threshold) twin_image = Returns twin_strings
   /\ int_from_bytes [x10; x10; x00; x00] little = 4096 + 16
   /\ build_index 15 twin_strings !! Z.land 4112 15 = Some twin_strings
   /\ run (scan_file 9 little 4 4) twin_body = Returns []
   /\ run (scan_file 9 little 4 4) twin_image = Returns [(4112, 2); (4096, 2)]
   /\ counter_get [(4112, 2); (4096, 2)] 4096 = 2
   /\ counter_total [(4112, 2); (4096, 2)] = 4)
  /\ (run (iter_cstrings default_threshold) open_image
      = Returns [(4, list_byte_of_string "HELLOWORLD12")]
      /\ run (scan_file 6 little 4 12) open_image = Returns [(8192, 1)]
      /\ int_from_bytes [x04; x10; x00; x00] little = 4096 + 4
      /\ run (scan_file 6 little 4 12) (open_image ++ [x04; x10; x00; x00])
         = Returns []
      /\ counter_get [] 8192 < counter_get [(8192, 1)] 8192).
Proof.
  split; repeat split; vm_compute; reflexivity.
Qed.

(** ** The example image *)

(** C3: on the 16-byte image made of a 0x00 byte, HELLOWORLD from offset
    1 on, a 0x00 byte and the little-endian word 0x1001, the scan with
    pointer size 4, little endian and mask 12 returns the counter with
    the one entry 0x1000, which is the most common one, and [main]
    prints 0x1000. *)
Theorem hello_image_best_base (fuel : nat) :
  length hello_image = 16%nat
  /\ window hello_image 1 10 = list_byte_of_string "HELLOWORLD"
  /\ int_from_bytes (window hello_image 12 4) little = 4096 + 1
  /\ run (scan_file (5 + fuel) little 4 12) hello_image = Returns [(4096, 1)]
  /\ most_common 1 [(4096, 1)] = [(4096, 1)]
  /\ run (main (5 + fuel) little 4 12 false) hello_image
     = Returns (PrintBest 4096).
Proof.
  repeat split; vm_compute; reflexivity.
Qed.

(** ** Empty results *)

Lemma filter_none {X} (f : X -> bool) (l : list X) :
  (forall x, In x l -> f x = false) -> List.filter f l = [].
Proof.
  induction l as [|a l IH]; cbn [List.filter In]; intros Hall; [reflexivity|].
  rewrite (Hall a) by (left; reflexivity). apply IH. intros x Hx.
  apply Hall. right. exact Hx.
Qed.

Lemma window_subset (image : bytes) (start size : nat) (c : byte) :
  In c (window image start size) -> In c image.
Proof.
  unfold window. intros Hin.
  rewrite <- (firstn_skipn start image). apply in_or_app. right.
  rewrite <- (firstn_skipn size (skipn start image)). apply in_or_app. left.
  exact Hin.
Qed.

(** An image without printable bytes has no string of positive length
    to keep. *)
Lemma no_printable_no_cstring (image : bytes) (threshold : Z) :
  0 < threshold ->
  Forall (fun c => ~ string_printable c) image ->
  run (iter_cstrings threshold) image = Returns [].
Proof.
  intros Hth Hbin. unfold run. rewrite iter_cstrings_unfold.
  cbn [result_of Stream.open Stream.content]. f_equal.
  apply filter_none. intros s Hin.
  destruct (keep_cstring threshold s) eqn:Hkeep; [exfalso|reflexivity].
  apply keep_cstring_true in Hkeep as [Hlen Hprintable].
  destruct (raw_cstrings_faithful image) as [Hall _]. cbn zeta in Hall.
  destruct (Hall s Hin) as [(_ & Hwin & _) _].
  destruct (snd s) as [|c str] eqn:Hstr; [unfold blen in Hlen; cbn in Hlen; lia|].
  assert (Hc : In c image).
  { apply (window_subset image (Z.to_nat (fst s)) (length (c :: str))).
    rewrite <- Hwin. left. reflexivity. }
  rewrite List.Forall_forall in Hbin. apply (Hbin c Hc).
  apply Forall_inv in Hprintable. exact Hprintable.
Qed.

Lemma vote_string_negative chk w (c : counter) (bucket : list cstring) :
  (forall s, In s bucket -> chk - fst s < 0) ->
  fold_left (vote_string chk w) bucket c = c.
Proof.
  induction bucket as [|s bucket IH]; cbn [fold_left In]; intros Hneg;
    [reflexivity|].
  unfold vote_string at 2.
  destruct (Z.ltb_spec (chk - fst s) 0) as [_|Hpos].
  - apply IH. intros s' Hs'. apply Hneg. right. exact Hs'.
  - specialize (Hneg s (or_introl eq_refl)). lia.
Qed.

(** Without a pair of a pointer word and a string of its bucket with a
    base that is not negative, the counter stays as it is. *)
Lemma votes_from_no_pair (M : gmap Z (list cstring)) (MASK : Z)
    (chunks : list Z) (c : counter) :
  (forall chk bucket s,
     In chk chunks -> M !! Z.land chk MASK = Some bucket -> In s bucket ->
     chk - fst s < 0) ->
  fold_left (vote M MASK) chunks c = c.
Proof.
  revert c. induction chunks as [|chk chunks IH]; intros c Hnone;
    cbn [fold_left]; [reflexivity|].
  rewrite IH.
  - unfold vote.
    destruct (M !! Z.land chk MASK) as [bucket|] eqn:Hlookup; [|reflexivity].
    apply vote_string_negative. intros s Hs.
    apply (Hnone chk bucket s); [left; reflexivity|exact Hlookup|exact Hs].
  - intros chk' bucket s Hin. apply Hnone. right. exact Hin.
Qed.

Lemma main_unfold (image : bytes) (fuel : nat) (endian : byteorder)
    (pointer_size mask : Z) (verbose : bool) :
  pointer_size = 4 \/ pointer_size = 8 ->
  run (main fuel endian pointer_size mask verbose) image
  = match run (scan_file fuel endian pointer_size mask) image with
    | Returns result =>
        match most_common 1 result with
        | [] => Raises IndexError
        | (best_result, _) :: _ =>
            Returns (if verbose then PrintTable (most_common 10 result)
                     else PrintBest best_result)
        end
    | Raises e => Raises e
    | OutOfFuel => OutOfFuel
    end.
Proof.
  intros Hsize. unfold run, main.
  replace ((pointer_size =? 4) || (pointer_size =? 8))%bool with true
    by (destruct Hsize as [->| ->]; reflexivity).
  cbn [negb]. unfold bind.
  destruct (scan_file fuel endian pointer_size mask (Stream.open image))
    as [[result s']| |]; cbn [result_of]; try reflexivity.
  destruct (most_common 1 result) as [|[best_result n] rest];
    [reflexivity|].
  destruct verbose; reflexivity.
Qed.

(** C4, amended: for an accepted pointer size, when the scan returns an
    empty counter, [main] ends in the IndexError of [most_common(1)[0]],
    with or without [--verbose], and prints nothing; this is the case of
    an image without a byte of [string.printable] (codes 0x20 to 0x7e
    and 0x09 to 0x0d), which has no candidate string and so no vote (for
    a mask width that is not negative and fuel for the windows of the
    image). *)
Theorem main_empty_result (image : bytes) (fuel : nat) (endian : byteorder)
    (pointer_size mask : Z) (verbose : bool)
    (Hsize : pointer_size = 4 \/ pointer_size = 8) :
  (run (scan_file fuel endian pointer_size mask) image = Returns [] ->
   run (main fuel endian pointer_size mask verbose) image = Raises IndexError)
  /\ (Forall (fun c => ~ string_printable c) image ->
      0 <= mask ->
      blen image / pointer_size < Z.of_nat fuel ->
      run (iter_cstrings default_threshold) image = Returns []
      /\ run (scan_file fuel endian pointer_size mask) image = Returns []
      /\ run (main fuel endian pointer_size mask verbose) image
         = Raises IndexError).
Proof.
  assert (Hempty : run (scan_file fuel endian pointer_size mask) image
                   = Returns [] ->
                   run (main fuel endian pointer_size mask verbose) image
                   = Raises IndexError).
  { intros Hscan. rewrite main_unfold, Hscan by exact Hsize. reflexivity. }
  split; [exact Hempty|].
  intros Hbin Hmask Hfuel.
  assert (Hpos : 0 < pointer_size) by lia.
  assert (Hnone : run (iter_cstrings default_threshold) image = Returns [])
    by (apply no_printable_no_cstring; [reflexivity|exact Hbin]).
  assert (Hscan : run (scan_file fuel endian pointer_size mask) image
                  = Returns []).
  { destruct (scan_file_returns image fuel endian pointer_size mask
                Hmask Hpos Hfuel)
      as (strs & chunks & Hstrs & _ & _ & Hscan).
    rewrite Hnone in Hstrs. injection Hstrs as <-.
    rewrite Hscan. f_equal. apply votes_from_no_pair.
    intros chk bucket s _ Hlookup. cbn in Hlookup.
    rewrite lookup_empty in Hlookup. discriminate. }
  split; [exact Hnone|]. split; [exact Hscan|]. apply Hempty, Hscan.
Qed.

Lemma main_empty_result_witness :
  run (iter_cstrings default_threshold) binary_image = Returns []
  /\ run (scan_file 4 little 4 12) binary_image = Returns []
  /\ run (main 4 little 4 12 false) binary_image = Raises IndexError.
Proof.
  apply (main_empty_result binary_image 4 little 4 12 false).
  - left. reflexivity.
  - repeat constructor; unfold string_printable; vm_compute; intuition discriminate.
  - lia.
  - vm_compute. reflexivity.
Defined.

(** C4 as first stated fails on control bytes that [string.printable]
    holds: the image of twelve line feeds and four 0x00 bytes has no
    printable ASCII character, yet the line feeds are a candidate string
    at offset 0, the last pointer word 0 votes for base 0, and [main]
    prints 0x0 instead of failing. *)
Lemma main_prints_base_for_line_feeds :
  Forall (fun c => ~ printable_ascii c) newline_image
  /\ run (iter_cstrings default_threshold) newline_image
     = Returns [(0, repeat x0a 12)]
  /\ run (scan_file 5 little 4 12) newline_image = Returns [(0, 1)]
  /\ run (main 5 little 4 12 false) newline_image = Returns (PrintBest 0).
Proof.
  split; [|repeat split; vm_compute; reflexivity].
  repeat constructor; unfold printable_ascii; vm_compute;
    intuition discriminate.
Qed.

(** ** Termination *)

(** With pointer size 0 every [read] returns no byte, which is not fewer
    than 0 bytes: the loop of [chunkify] never breaks. *)
Lemma chunkify_zero_loops (fuel : nat) (endian : byteorder) (s : Stream.t) :
  chunkify fuel 0 endian s = OutOfFuel.
Proof.
  revert s. induction fuel as [|fuel IH]; intros s; [reflexivity|].
  cbn [chunkify]. unfold bind at 1, read.
  change (0 <? -1) with false. change (0 <? 0) with false.
  cbn [Z.ltb Z.compare Z.to_nat firstn blen length Z.of_nat].
  apply bind_out_of_fuel, IH.
Qed.

(** Called with pointer size 0, which [main] never passes, the scan is
    still running after 1000 rounds on the example image, and after any
    number of rounds. *)
Lemma scan_file_zero_pointer_size_loops :
  run (scan_file 1000 little 0 12) hello_image = OutOfFuel
  /\ forall fuel, run (scan_file fuel little 0 12) hello_image = OutOfFuel.
Proof.
  assert (Hloop : forall fuel,
            run (scan_file fuel little 0 12) hello_image = OutOfFuel).
  { intros fuel. unfold run, scan_file.
    unfold bind at 1, lift. rewrite make_mask_ones by lia.
    unfold bind at 1. rewrite iter_cstrings_unfold.
    unfold bind at 1, seek. unfold bind at 1.
    rewrite chunkify_zero_loops. reflexivity. }
  split; [apply Hloop|exact Hloop].
Qed.

(** On a runtime without limits the scan returns for every mask width
    that is not negative and every pointer size of at least 1. *)
Lemma scan_file_unlimited_total (image : bytes) (fuel : nat)
    (endian : byteorder) (pointer_size mask : Z)
    (Hmask : 0 <= mask) (Hsize : 1 <= pointer_size)
    (Hfuel : blen image / pointer_size < Z.of_nat fuel) :
  exists strs chunks c,
    run (iter_cstrings default_threshold) image = Returns strs
    /\ run (chunkify fuel pointer_size endian) image = Returns chunks
    /\ run (scan_file fuel endian pointer_size mask) image = Returns c
    /\ (strs = [] -> c = [])
    /\ ((forall chk s,
           In chk chunks -> In s strs ->
           Z.land chk (Z.ones mask) = Z.land (fst s) (Z.ones mask) ->
           chk - fst s < 0) ->
        c = []).
Proof.
  destruct (scan_file_returns image fuel endian pointer_size mask)
    as (strs & chunks & Hstrs & Hchunks & _ & Hscan); [lia..|].
  exists strs, chunks. eexists.
  split; [exact Hstrs|]. split; [exact Hchunks|]. split; [exact Hscan|].
  assert (Hnone : (forall chk s,
            In chk chunks -> In s strs ->
            Z.land chk (Z.ones mask) = Z.land (fst s) (Z.ones mask) ->
            chk - fst s < 0) ->
          votes (build_index (Z.ones mask) strs) (Z.ones mask) chunks = []).
  { intros Hneg. apply votes_from_no_pair.
    intros chk bucket s Hchk Hlookup Hs.
    destruct (build_index_member _ _ _ _ _ Hlookup Hs) as [Hin Hkey].
    apply Hneg; [exact Hchk|exact Hin|symmetry; exact Hkey]. }
  split; [|exact Hnone].
  intros ->. apply Hnone. intros chk s _ [].
Qed.

(** Within the capacity of the runtime the scan is the scan without
    limits; past it the scan ends in MemoryError before it reads a
    byte. *)
Lemma scan_file_within_capacity (capacity : Z) (fuel : nat)
    (endian : byteorder) (pointer_size mask : Z) (s : Stream.t) :
  mask <= capacity ->
  scan_file_within capacity fuel endian pointer_size mask s
  = scan_file fuel endian pointer_size mask s.
Proof.
  intros Hmask. unfold scan_file_within, scan_file, bind, lift.
  unfold make_mask_within, make_mask.
  destruct (Z.ltb_spec mask 0); [reflexivity|].
  destruct (Z.ltb_spec capacity mask); [lia|reflexivity].
Qed.

Lemma scan_file_past_capacity (capacity : Z) (fuel : nat)
    (endian : byteorder) (pointer_size mask : Z) (s : Stream.t) :
  0 <= mask -> capacity < mask ->
  scan_file_within capacity fuel endian pointer_size mask s
  = Raises MemoryError.
Proof.
  intros Hmask Hcapacity. unfold scan_file_within, bind, lift.
  unfold make_mask_within.
  destruct (Z.ltb_spec mask 0); [lia|].
  destruct (Z.ltb_spec capacity mask); [reflexivity|lia].
Qed.

(** C9 as first stated fails for a mask width that the runtime cannot
    allocate: with width 2 ^ 64, which is not negative, the scan of the
    example image with pointer size 4 ends in MemoryError on a runtime
    that holds integers of up to 2 ^ 63 bits, and so it does for every
    image, pointer size and byte order on every runtime whose capacity is
    below 2 ^ 64 bits. *)
Lemma scan_file_unallocatable_mask :
  0 <= 2 ^ 64
  /\ run (scan_file_within (2 ^ 63) 5 little 4 (2 ^ 64)) hello_image
     = Raises MemoryError
  /\ forall capacity fuel endian pointer_size image,
       capacity < 2 ^ 64 ->
       run (scan_file_within capacity fuel endian pointer_size (2 ^ 64)) image
       = Raises MemoryError.
Proof.
  assert (Hraises : forall capacity fuel endian pointer_size image,
            capacity < 2 ^ 64 ->
            run (scan_file_within capacity fuel endian pointer_size (2 ^ 64))
              image
            = Raises MemoryError).
  { intros capacity fuel endian pointer_size image Hcapacity.
    unfold run. rewrite scan_file_past_capacity; [reflexivity|lia|exact Hcapacity]. }
  split; [lia|]. split; [apply Hraises; lia|exact Hraises].
Qed.

(** C9, amended: for every image, byte order and threshold, with pointer
    size 4 or 8 and a mask width that is not negative and that the
    runtime can allocate, and fuel for one round more than the image has
    whole windows, string extraction, pointer chunking and voting return
    without an exception; an image with no qualifying string gives no
    candidate and an empty counter, and so does an image in which no
    pointer word has a string with the same masked low bits at or below
    its value. *)
Theorem scan_file_total_within_capacity (capacity : Z) (image : bytes)
    (fuel : nat) (endian : byteorder) (pointer_size mask threshold : Z)
    (Hsize : pointer_size = 4 \/ pointer_size = 8)
    (Hmask : 0 <= mask <= capacity)
    (Hfuel : blen image / pointer_size < Z.of_nat fuel) :
  (exists out, run (iter_cstrings threshold) image = Returns out)
  /\ exists MASK strs chunks c,
       make_mask_within capacity mask = Returns MASK
       /\ run (iter_cstrings default_threshold) image = Returns strs
       /\ run (chunkify fuel pointer_size endian) image = Returns chunks
       /\ run (scan_file_within capacity fuel endian pointer_size mask) image
          = Returns c
       /\ (strs = [] -> c = [])
       /\ ((forall chk s,
              In chk chunks -> In s strs ->
              Z.land chk MASK = Z.land (fst s) MASK -> chk - fst s < 0) ->
           c = []).
Proof.
  split.
  - eexists. unfold run. rewrite iter_cstrings_unfold. reflexivity.
  - destruct (scan_file_unlimited_total image fuel endian pointer_size mask)
      as (strs & chunks & c & Hstrs & Hchunks & Hscan & Hempty & Hnone);
      [lia|lia|exact Hfuel|].
    exists (Z.ones mask), strs, chunks, c.
    split.
    { unfold make_mask_within.
      destruct (Z.ltb_spec mask 0); [lia|].
      destruct (Z.ltb_spec capacity mask); [lia|].
      unfold Z.ones. rewrite <- Z.sub_1_r. reflexivity. }
    split; [exact Hstrs|]. split; [exact Hchunks|].
    split; [|split; assumption].
    unfold run. rewrite scan_file_within_capacity by lia. exact Hscan.
Qed.

Lemma scan_file_total_within_capacity_witness :
  (exists out, run (iter_cstrings 3) hello_image = Returns out)
  /\ exists MASK strs chunks c,
       make_mask_within (2 ^ 63) 12 = Returns MASK
       /\ run (iter_cstrings default_threshold) hello_image = Returns strs
       /\ run (chunkify 5 4 big) hello_image = Returns chunks
       /\ run (scan_file_within (2 ^ 63) 5 big 4 12) hello_image = Returns c
       /\ (strs = [] -> c = [])
       /\ ((forall chk s,
              In chk chunks -> In s strs ->
              Z.land chk MASK = Z.land (fst s) MASK -> chk - fst s < 0) ->
           c = []).
Proof.
  apply (scan_file_total_within_capacity (2 ^ 63) hello_image 5 big 4 12 3).
  - left. reflexivity.
  - lia.
  - vm_compute. reflexivity.
Defined.

(** [main] itself always ends: the parser keeps the pointer sizes that
    would loop away from the scan. *)
Lemma main_never_loops (image : bytes) (fuel : nat) (endian : byteorder)
    (pointer_size mask : Z) (verbose : bool) :
  blen image / 4 < Z.of_nat fuel ->
  run (main fuel endian pointer_size mask verbose) image <> OutOfFuel.
Proof.
  intros Hfuel.
  destruct (Z.eq_dec pointer_size 4) as [H4|H4];
    [|destruct (Z.eq_dec pointer_size 8) as [H8|H8]].
  3: { unfold run, main.
       destruct (Z.eqb_spec pointer_size 4); [contradiction|].
       destruct (Z.eqb_spec pointer_size 8); [contradiction|].
       discriminate. }
  all: assert (Hsize : pointer_size = 4 \/ pointer_size = 8) by tauto;
    rewrite (main_unfold image fuel endian pointer_size mask verbose Hsize).
  all: destruct (Z.ltb_spec mask 0) as [Hneg|Hmask].
  all: try (unfold run, scan_file, bind, lift, make_mask;
            destruct (Z.ltb_spec mask 0); [discriminate|lia]).
  all: destruct (scan_file_returns image fuel endian pointer_size mask)
         as (strs & chunks & _ & _ & _ & Hscan);
    [exact Hmask|lia| |].
  all: try (rewrite Hscan;
            destruct (most_common 1 _) as [|[best n] rest]; discriminate).
  - subst pointer_size. exact Hfuel.
  - subst pointer_size. unfold blen in *.
    pose proof (Z.div_le_compat_l (Z.of_nat (length image)) 4 8). lia.
Qed.

(** * Further properties of the code *)

(** ** make_mask *)

(** X1: a negative mask width makes [scan_file] end in the ValueError of
    [1 << n] before it reads a byte, whatever the image, the pointer size
    and the byte order; [main] with an accepted pointer size ends in the
    same error. *)
Theorem scan_file_negative_mask (image : bytes) (fuel : nat)
    (endian : byteorder) (pointer_size mask : Z)
    (Hmask : mask < 0) :
  (forall s, scan_file fuel endian pointer_size mask s = Raises ValueError)
  /\ run (scan_file fuel endian pointer_size mask) image = Raises ValueError
  /\ (pointer_size = 4 \/ pointer_size = 8 ->
      forall verbose,
        run (main fuel endian pointer_size mask verbose) image
        = Raises ValueError).
Proof.
  assert (Hscan : forall s,
            scan_file fuel endian pointer_size mask s = Raises ValueError).
  { intros s. unfold scan_file, bind, lift, make_mask.
    destruct (Z.ltb_spec mask 0); [reflexivity|lia]. }
  split; [exact Hscan|]. split.
  - unfold run. rewrite Hscan. reflexivity.
  - intros Hsize verbose. rewrite main_unfold by exact Hsize.
    unfold run. rewrite Hscan. reflexivity.
Qed.

Lemma scan_file_negative_mask_witness :
  (forall s, scan_file 0 big 8 (-3) s = Raises ValueError)
  /\ run (scan_file 0 big 8 (-3)) hello_image = Raises ValueError
  /\ (8 = 4 \/ 8 = 8 ->
      forall verbose,
        run (main 0 big 8 (-3) verbose) hello_image = Raises ValueError).
Proof.
  apply (scan_file_negative_mask hello_image 0 big 8 (-3)). lia.
Defined.

(** X2: for a width n that is not negative, [make_mask] returns
    2 ^ n - 1, and masking with it keeps exactly the low n bits: the
    result is the remainder modulo 2 ^ n, for negative integers too. *)
Theorem make_mask_low_bits (n : Z) (Hn : 0 <= n) :
  exists MASK,
    make_mask n = Returns MASK
    /\ MASK = 2 ^ n - 1
    /\ forall x, Z.land x MASK = x mod 2 ^ n
                 /\ 0 <= Z.land x MASK <= MASK.
Proof.
  exists (Z.ones n). split; [apply make_mask_ones, Hn|].
  split; [rewrite Z.ones_equiv; lia|].
  intros x. rewrite Z.land_ones by exact Hn. split; [reflexivity|].
  rewrite Z.ones_equiv.
  pose proof (Z.mod_pos_bound x (2 ^ n)).
  assert (0 < 2 ^ n) by (apply Z.pow_pos_nonneg; lia). lia.
Qed.

Lemma make_mask_low_bits_witness :
  exists MASK,
    make_mask 12 = Returns MASK
    /\ MASK = 2 ^ 12 - 1
    /\ forall x, Z.land x MASK = x mod 2 ^ 12
                 /\ 0 <= Z.land x MASK <= MASK.
Proof.
  apply (make_mask_low_bits 12). lia.
Defined.

(** ** chunkify and the cursor *)

(** One round of the loop of [chunkify]. *)
Lemma chunkify_round (fuel : nat) (pointer_size : Z) (endian : byteorder)
    (s : Stream.t) :
  chunkify (S fuel) pointer_size endian s
  = if pointer_size <? -1 then Raises ValueError
    else
      let d := if pointer_size <? 0 then Stream.remaining s
               else firstn (Z.to_nat pointer_size) (Stream.remaining s) in
      let s' := Stream.mk (Stream.content s) (Stream.cursor s + length d) in
      if blen d <? pointer_size then Returns ([], s')
      else match chunkify fuel pointer_size endian s' with
           | Returns (rest, s'') =>
               Returns (int_from_bytes d endian :: rest, s'')
           | Raises e => Raises e
           | OutOfFuel => OutOfFuel
           end.
Proof.
  cbn [chunkify]. unfold bind, read, ret.
  destruct (pointer_size <? -1); [reflexivity|]. cbv zeta.
  destruct (blen _ <? pointer_size); reflexivity.
Qed.

Lemma chunkify_nonpositive (fuel : nat) (pointer_size : Z)
    (endian : byteorder) (s : Stream.t) :
  pointer_size <= 0 ->
  chunkify fuel pointer_size endian s = OutOfFuel
  \/ chunkify fuel pointer_size endian s = Raises ValueError.
Proof.
  intros Hsize. revert s.
  induction fuel as [|fuel IH]; intros s; [left; reflexivity|].
  rewrite chunkify_round.
  destruct (pointer_size <? -1); [right; reflexivity|]. cbv zeta.
  match goal with |- context [blen ?d <? pointer_size] =>
    destruct (Z.ltb_spec (blen d) pointer_size) as [Hlt|_];
      [unfold blen in Hlt; lia|]
  end.
  match goal with |- context [chunkify fuel pointer_size endian ?s'] =>
    destruct (IH s') as [-> | ->]
  end; [left|right]; reflexivity.
Qed.

Lemma chunkify_minus_one_or_zero (fuel : nat) (pointer_size : Z)
    (endian : byteorder) (s : Stream.t) :
  -1 <= pointer_size <= 0 ->
  chunkify fuel pointer_size endian s = OutOfFuel.
Proof.
  intros Hsize. revert s.
  induction fuel as [|fuel IH]; intros s; [reflexivity|].
  rewrite chunkify_round.
  destruct (Z.ltb_spec pointer_size (-1)); [lia|]. cbv zeta.
  match goal with |- context [blen ?d <? pointer_size] =>
    destruct (Z.ltb_spec (blen d) pointer_size) as [Hlt|_];
      [unfold blen in Hlt; lia|]
  end.
  rewrite IH. reflexivity.
Qed.

(** X3: with a pointer size of 0 or less [chunkify] never returns its
    (finite) sequence: for sizes 0 and -1 the loop is still running after
    any number of rounds. *)
Theorem chunkify_needs_positive_size (image : bytes) (fuel : nat)
    (pointer_size : Z) (endian : byteorder)
    (Hsize : pointer_size <= 0) :
  (forall vals, run (chunkify fuel pointer_size endian) image <> Returns vals)
  /\ (-1 <= pointer_size ->
      run (chunkify fuel pointer_size endian) image = OutOfFuel).
Proof.
  split.
  - intros vals. unfold run.
    destruct (chunkify_nonpositive fuel pointer_size endian
                (Stream.open image) Hsize) as [-> | ->]; discriminate.
  - intros Hlow. unfold run.
    rewrite chunkify_minus_one_or_zero by lia. reflexivity.
Qed.

Lemma chunkify_needs_positive_size_witness :
  (forall vals, run (chunkify 50 (-1) little) hello_image <> Returns vals)
  /\ (-1 <= -1 -> run (chunkify 50 (-1) little) hello_image = OutOfFuel).
Proof.
  apply (chunkify_needs_positive_size hello_image 50 (-1) little). lia.
Defined.

Lemma chunkify_from_cursor (image : bytes) (endian : byteorder)
    (n fuel k : nat) :
  (0 < n)%nat -> (k <= length image)%nat ->
  ((length image - k) / n < fuel)%nat ->
  chunkify fuel (Z.of_nat n) endian (Stream.mk image k)
  = Returns (decoded_windows image k n endian,
             Stream.mk image (length image)).
Proof.
  intros Hn. revert k.
  induction fuel as [|fuel IH]; intros k Hk Hfuel; [lia|].
  cbn [chunkify].
  rewrite (bind_returns _ _ _ _ _ (read_window image n k)).
  unfold blen. rewrite length_window.
  destruct (Z.ltb_spec (Z.of_nat (Nat.min n (length image - k))) (Z.of_nat n))
    as [Hshort|Hfull].
  - unfold ret. rewrite decoded_windows_short by lia.
    do 3 f_equal. lia.
  - rewrite Nat.min_l by lia.
    rewrite (bind_returns _ _ _ _ _ (IH (k + n)%nat ltac:(lia) ltac:(
      replace (length image - k)%nat
        with (length image - (k + n) + 1 * n)%nat in Hfuel by lia;
      rewrite Nat.div_add in Hfuel by lia; lia))).
    unfold ret. rewrite (decoded_windows_step image endian k n) by lia.
    reflexivity.
Qed.

(** X4: [chunkify] reads from where the cursor of the stream stands: for
    a positive pointer size, from cursor k it yields the whole windows of
    the bytes from k on, floor((L - k) / pointer_size) of them, and
    leaves the cursor at the end of the file; from the end of the file it
    yields nothing. *)
Theorem chunkify_reads_from_cursor (image : bytes) (fuel : nat)
    (pointer_size : Z) (endian : byteorder) (k : nat)
    (Hsize : 0 < pointer_size)
    (Hk : (k <= length image)%nat)
    (Hfuel : (blen image - Z.of_nat k) / pointer_size < Z.of_nat fuel) :
  exists vals,
    chunkify fuel pointer_size endian (Stream.mk image k)
    = Returns (vals, Stream.mk image (length image))
    /\ Z.of_nat (length vals) = (blen image - Z.of_nat k) / pointer_size
    /\ (forall i, (i < length vals)%nat ->
          nth i vals 0
          = int_from_bytes
              (window image (k + i * Z.to_nat pointer_size)
                 (Z.to_nat pointer_size)) endian)
    /\ (k = length image -> vals = []).
Proof.
  set (n := Z.to_nat pointer_size).
  assert (Hn : (0 < n)%nat) by lia.
  assert (Hps : pointer_size = Z.of_nat n) by lia.
  assert (Hdiv : (blen image - Z.of_nat k) / pointer_size
                 = Z.of_nat ((length image - k) / n)).
  { unfold blen. rewrite Hps, Nat2Z.inj_div, Nat2Z.inj_sub by exact Hk.
    reflexivity. }
  exists (decoded_windows image k n endian).
  split; [|split; [|split]].
  - rewrite Hps. apply chunkify_from_cursor; [exact Hn|exact Hk|lia].
  - unfold decoded_windows. rewrite length_map, length_seq. lia.
  - unfold decoded_windows at 1. rewrite length_map, length_seq.
    intros i Hi. unfold decoded_windows. now rewrite nth_map_seq.
  - intros ->. apply decoded_windows_short. lia.
Qed.

Lemma chunkify_reads_from_cursor_witness :
  exists vals,
    chunkify 3 4 little (Stream.mk hello_image 8)
    = Returns (vals, Stream.mk hello_image (length hello_image))
    /\ Z.of_nat (length vals) = (blen hello_image - Z.of_nat 8) / 4
    /\ (forall i, (i < length vals)%nat ->
          nth i vals 0
          = int_from_bytes
              (window hello_image (8 + i * Z.to_nat 4) (Z.to_nat 4)) little)
    /\ (8%nat = length hello_image -> vals = []).
Proof.
  apply (chunkify_reads_from_cursor hello_image 3 4 little 8).
  - lia.
  - vm_compute. lia.
  - vm_compute. reflexivity.
Defined.

(** X5: [iter_cstrings] and [iter_cstrings_raw] rewind the stream first,
    so they yield the same strings from any cursor position (a second
    pass repeats the first) and leave the cursor at the end of the
    file. *)
Theorem iter_cstrings_rewinds (image : bytes) (threshold : Z) (k : nat) :
  exists raw out,
    run (iter_cstrings_raw default_delimiter) image = Returns raw
    /\ run (iter_cstrings threshold) image = Returns out
    /\ iter_cstrings_raw default_delimiter (Stream.mk image k)
       = Returns (raw, Stream.mk image (length image))
    /\ iter_cstrings threshold (Stream.mk image k)
       = Returns (out, Stream.mk image (length image))
    /\ (let* first_pass := iter_cstrings threshold in
        let* second_pass := iter_cstrings threshold in
        ret (first_pass, second_pass)) (Stream.mk image k)
       = Returns ((out, out), Stream.mk image (length image)).
Proof.
  eexists _, _. unfold run, Stream.open.
  rewrite !iter_cstrings_raw_default, !iter_cstrings_unfold.
  cbn [result_of Stream.content Nat.add].
  repeat (split; [reflexivity|]).
  unfold bind at 1. rewrite iter_cstrings_unfold.
  unfold bind at 1. rewrite iter_cstrings_unfold. reflexivity.
Qed.

Lemma scan_file_unfold (fuel : nat) (endian : byteorder)
    (pointer_size mask : Z) (s : Stream.t) :
  scan_file fuel endian pointer_size mask s
  = match make_mask mask with
    | Returns MASK =>
        match chunkify fuel pointer_size endian
                (Stream.mk (Stream.content s) 0) with
        | Returns (chunks, s') =>
            Returns
              (votes
                 (build_index MASK
                    (List.filter (keep_cstring default_threshold)
                       (number_runs 0 default_delimiter
                          (split_from default_delimiter (Stream.content s) 0))))
                 MASK chunks, s')
        | Raises e => Raises e
        | OutOfFuel => OutOfFuel
        end
    | Raises e => Raises e
    | OutOfFuel => OutOfFuel
    end.
Proof.
  unfold scan_file. unfold bind at 1, lift.
  destruct (make_mask mask) as [MASK| |]; reflexivity.
Qed.

(** X6: [scan_file] rewinds the stream before each of its two passes, so
    its outcome does not depend on where the cursor of the stream stands
    when it is called. *)
Theorem scan_file_rewinds (image : bytes) (fuel : nat) (endian : byteorder)
    (pointer_size mask : Z) (k : nat) :
  result_of (scan_file fuel endian pointer_size mask (Stream.mk image k))
  = run (scan_file fuel endian pointer_size mask) image.
Proof.
  unfold run, Stream.open. rewrite !scan_file_unfold. reflexivity.
Qed.

(** ** Splitting at any delimiter *)

Lemma starts_with_prefix (sep data : bytes) :
  starts_with sep data = true -> data = sep ++ skipn (length sep) data.
Proof.
  revert data. induction sep as [|a sep IH]; intros data Hstart.
  - reflexivity.
  - destruct data as [|b data]; [discriminate|].
    cbn [starts_with] in Hstart. apply andb_true_iff in Hstart as [Hab Hrest].
    apply Byte.byte_dec_bl in Hab. subst b.
    cbn [length skipn app]. f_equal. apply IH, Hrest.
Qed.

Lemma bytes_join_cons (sep run : bytes) (runs : list bytes) :
  runs <> [] ->
  bytes_join sep (run :: runs) = run ++ sep ++ bytes_join sep runs.
Proof. destruct runs; [congruence|reflexivity]. Qed.

(** Joining what [split_from] returns gives back the data, from the end
    of the separator under way on. *)
Lemma split_from_join (sep data : bytes) (skip : nat) :
  (skip < length sep)%nat -> (skip <= length data)%nat ->
  firstn skip data = skipn (length sep - skip) sep ->
  split_from sep data skip <> []
  /\ bytes_join sep (split_from sep data skip) = skipn skip data.
Proof.
  revert skip. induction data as [|b rest IH]; intros skip Hsep Hlen Hpre.
  - cbn [length] in Hlen. replace skip with 0%nat by lia.
    cbn. split; [discriminate|reflexivity].
  - destruct skip as [|k].
    + cbn [split_from skipn].
      destruct (starts_with sep (b :: rest)) eqn:Hstart.
      * destruct sep as [|a sep']; [cbn in Hsep; lia|].
        pose proof (starts_with_prefix _ _ Hstart) as Hdata.
        cbn [length skipn app] in Hdata. injection Hdata as Hb Hrest.
        subst a.
        replace (length (b :: sep') - 1)%nat with (length sep')
          by (cbn [length]; lia).
        destruct (IH (length sep')) as [Hne Hjoin].
        -- cbn [length]. lia.
        -- rewrite Hrest, length_app. lia.
        -- cbn [length].
           replace (S (length sep') - length sep')%nat with 1%nat by lia.
           cbn [skipn]. rewrite Hrest at 1.
           rewrite firstn_app, Nat.sub_diag, firstn_all. cbn [firstn].
           apply app_nil_r.
        -- split; [discriminate|].
           rewrite bytes_join_cons by exact Hne.
           rewrite Hjoin. cbn [app]. f_equal. symmetry. exact Hrest.
      * destruct (IH 0%nat) as [Hne Hjoin].
        -- destruct sep; [cbn in Hsep; lia|cbn [length]; lia].
        -- lia.
        -- rewrite Nat.sub_0_r, skipn_all. reflexivity.
        -- cbn [skipn] in Hjoin.
           destruct (split_from sep rest 0) as [|run runs]; [congruence|].
           split; [discriminate|].
           destruct runs as [|run' runs].
           ++ cbn in *. f_equal. exact Hjoin.
           ++ rewrite bytes_join_cons in * by discriminate.
              cbn [app]. f_equal. exact Hjoin.
    + cbn [split_from skipn]. cbn [length] in Hlen.
      cbn [firstn] in Hpre.
      apply IH; [lia|lia|].
      assert (Hskip : skipn 1 (skipn (length sep - S k) sep)
                      = skipn (length sep - k) sep).
      { rewrite skipn_skipn. f_equal. lia. }
      rewrite <- Hskip, <- Hpre. reflexivity.
Qed.

Lemma map_snd_number_runs (pos : Z) (delimiter : bytes) (runs : list bytes) :
  map snd (number_runs pos delimiter runs) = runs.
Proof.
  revert pos. induction runs as [|run runs IH]; intros pos; cbn [number_runs map snd].
  - reflexivity.
  - f_equal. apply IH.
Qed.

(** Where each numbered run stands in the join of the runs. *)
Lemma number_runs_decompose (delimiter : bytes) (runs : list bytes)
    (pos : Z) (s : cstring) :
  In s (number_runs pos delimiter runs) ->
  exists pre post,
    bytes_join delimiter runs = pre ++ snd s ++ post
    /\ blen pre = fst s - pos
    /\ (post = [] \/ exists post', post = delimiter ++ post').
Proof.
  revert pos. induction runs as [|run runs IH]; intros pos Hin;
    cbn [number_runs In] in Hin; [destruct Hin|].
  destruct Hin as [<-|Hin].
  - exists []. cbn [fst snd app].
    destruct runs as [|run' runs].
    + exists []. cbn [bytes_join]. rewrite app_nil_r.
      split; [reflexivity|].
      split; [unfold blen; cbn [length]; lia|left; reflexivity].
    + eexists. rewrite bytes_join_cons by discriminate.
      split; [reflexivity|].
      split; [unfold blen; cbn [length]; lia|]. right. eexists. reflexivity.
  - assert (Hne : runs <> []) by (destruct runs; [destruct Hin|discriminate]).
    destruct (IH _ Hin) as (pre & post & Hjoin & Hpre & Hpost).
    exists (run ++ delimiter ++ pre), post.
    rewrite bytes_join_cons by exact Hne. rewrite Hjoin.
    split; [now rewrite <- !app_assoc|]. split; [|exact Hpost].
    unfold blen in *. rewrite !length_app. lia.
Qed.

Lemma window_of_middle (pre mid post : bytes) :
  window (pre ++ mid ++ post) (length pre) (length mid) = mid.
Proof.
  unfold window. rewrite skipn_app, skipn_all, Nat.sub_diag.
  rewrite skipn_O. cbn [app].
  rewrite firstn_app, Nat.sub_diag, firstn_all, firstn_O. apply app_nil_r.
Qed.

Lemma iter_cstrings_raw_inversion (image delimiter : bytes)
    (raw : list cstring) :
  run (iter_cstrings_raw delimiter) image = Returns raw ->
  (0 < length delimiter)%nat
  /\ raw = number_runs 0 delimiter (split_from delimiter image 0).
Proof.
  unfold run, Stream.open. rewrite iter_cstrings_raw_unfold.
  cbn [Stream.content].
  destruct delimiter as [|a delimiter]; cbn [bytes_split result_of];
    [discriminate|].
  intros Hraw. injection Hraw as <-. split; [cbn; lia|reflexivity].
Qed.

(** X7: whatever the (non-empty) delimiter, [iter_cstrings_raw] yields at
    least one string, the first at offset 0, and joining the strings it
    yields with the delimiter gives back the image, byte for byte. *)
Theorem iter_cstrings_raw_round_trip (image delimiter : bytes)
    (raw : list cstring)
    (Hraw : run (iter_cstrings_raw delimiter) image = Returns raw) :
  (exists first others, raw = (0, first) :: others)
  /\ bytes_join delimiter (map snd raw) = image.
Proof.
  apply iter_cstrings_raw_inversion in Hraw as [Hsep ->].
  destruct (split_from_join delimiter image 0) as [Hne Hjoin];
    [exact Hsep|lia|rewrite Nat.sub_0_r, skipn_all; reflexivity|].
  split.
  - destruct (split_from delimiter image 0) as [|run runs]; [congruence|].
    eexists _, _. reflexivity.
  - rewrite map_snd_number_runs. exact Hjoin.
Qed.

Lemma iter_cstrings_raw_round_trip_witness :
  (exists first others,
     [(0, list_byte_of_string "ab"); (4, list_byte_of_string "cd"); (8, [])]
     = (0, first) :: others)
  /\ bytes_join (list_byte_of_string "XY")
       (map snd [(0, list_byte_of_string "ab");
                 (4, list_byte_of_string "cd"); (8, [])])
     = list_byte_of_string "abXYcdXY".
Proof.
  apply (iter_cstrings_raw_round_trip (list_byte_of_string "abXYcdXY")
           (list_byte_of_string "XY")).
  vm_compute. reflexivity.
Defined.

(** X8: whatever the (non-empty) delimiter, every (offset, string) that
    [iter_cstrings_raw] yields is the bytes of the image at
    [offset, offset + length), and the string either ends the image or is
    followed at once by the delimiter. *)
Theorem iter_cstrings_raw_offsets (image delimiter : bytes)
    (raw : list cstring) (off : Z) (sin : bytes)
    (Hraw : run (iter_cstrings_raw delimiter) image = Returns raw)
    (Hin : In (off, sin) raw) :
  0 <= off
  /\ sin = window image (Z.to_nat off) (length sin)
  /\ off + blen sin <= blen image
  /\ (off + blen sin = blen image
      \/ window image (Z.to_nat off + length sin) (length delimiter)
         = delimiter).
Proof.
  apply iter_cstrings_raw_inversion in Hraw as [Hsep ->].
  destruct (split_from_join delimiter image 0) as [_ Hjoin];
    [exact Hsep|lia|rewrite Nat.sub_0_r, skipn_all; reflexivity|].
  rewrite skipn_O in Hjoin.
  destruct (number_runs_decompose _ _ _ _ Hin)
    as (pre & post & Hdec & Hpre & Hpost).
  rewrite Hjoin in Hdec. cbn [fst snd] in *. rewrite Z.sub_0_r in Hpre.
  assert (Hoff : Z.to_nat off = length pre) by (unfold blen in Hpre; lia).
  split; [unfold blen in Hpre; lia|]. split; [|split].
  - rewrite Hdec, Hoff. symmetry. apply window_of_middle.
  - rewrite Hdec. unfold blen in *. rewrite !length_app. lia.
  - destruct Hpost as [->|[post' ->]].
    + left. rewrite Hdec. unfold blen in *. rewrite !length_app. cbn. lia.
    + right. rewrite Hdec, Hoff, <- length_app, !app_assoc.
      rewrite <- (app_assoc (pre ++ sin)). apply window_of_middle.
Qed.

Lemma iter_cstrings_raw_offsets_witness :
  0 <= 4
  /\ list_byte_of_string "cd"
     = window (list_byte_of_string "abXYcdXY") (Z.to_nat 4)
         (length (list_byte_of_string "cd"))
  /\ 4 + blen (list_byte_of_string "cd")
     <= blen (list_byte_of_string "abXYcdXY")
  /\ (4 + blen (list_byte_of_string "cd")
      = blen (list_byte_of_string "abXYcdXY")
      \/ window (list_byte_of_string "abXYcdXY")
           (Z.to_nat 4 + length (list_byte_of_string "cd"))
           (length (list_byte_of_string "XY"))
         = list_byte_of_string "XY").
Proof.
  apply (iter_cstrings_raw_offsets (list_byte_of_string "abXYcdXY")
           (list_byte_of_string "XY")
           [(0, list_byte_of_string "ab"); (4, list_byte_of_string "cd");
            (8, [])]).
  - vm_compute. reflexivity.
  - right. left. reflexivity.
Defined.

(** ** More on the strings *)

Lemma number_runs_from (pos : Z) (delimiter : bytes) (runs : list bytes)
    (s : cstring) :
  In s (number_runs pos delimiter runs) -> pos <= fst s.
Proof.
  revert pos. induction runs as [|run runs IH]; intros pos Hin;
    cbn [number_runs In] in Hin; [destruct Hin|].
  destruct Hin as [<-|Hin]; [cbn [fst]; lia|].
  apply IH in Hin. unfold blen in Hin. lia.
Qed.

Lemma number_runs_apart (pos : Z) (runs : list bytes) :
  StronglySorted ends_before (number_runs pos default_delimiter runs).
Proof.
  revert pos. induction runs as [|run runs IH]; intros pos;
    cbn [number_runs]; constructor.
  - apply IH.
  - apply List.Forall_forall. intros s Hin.
    apply number_runs_from in Hin. unfold ends_before; cbn [fst snd].
    change (blen default_delimiter) with 1 in Hin. lia.
Qed.

(** X9: the strings that [iter_cstrings] yields never overlap: each one
    starts after the end of every string yielded before it. *)
Theorem iter_cstrings_no_overlap (image : bytes) (threshold : Z) :
  exists out,
    run (iter_cstrings threshold) image = Returns out
    /\ StronglySorted
         (fun s1 s2 : cstring => fst s1 + blen (snd s1) < fst s2) out.
Proof.
  eexists. unfold run. rewrite iter_cstrings_unfold.
  split; [reflexivity|].
  apply StronglySorted_filter, number_runs_apart.
Qed.

Lemma count_byte_cons (d b : byte) (data : bytes) :
  count_byte d (b :: data)
  = if Byte.eqb d b then S (count_byte d data) else count_byte d data.
Proof.
  unfold count_byte. cbn [List.filter]. destruct (Byte.eqb d b); reflexivity.
Qed.

Lemma split_default_shape (data : bytes) :
  length (split_from default_delimiter data 0) = S (count_byte x00 data)
  /\ Forall (fun run => ~ In x00 run) (split_from default_delimiter data 0).
Proof.
  induction data as [|b rest [IHlen IHall]].
  - split; [reflexivity|]. repeat constructor. intros [].
  - rewrite split_from_default_cons, count_byte_cons.
    destruct (Byte.eqb x00 b) eqn:Hb.
    + split; [cbn [length]; now rewrite IHlen|].
      constructor; [intros []|exact IHall].
    + destruct (split_from default_delimiter rest 0) as [|run runs];
        [discriminate|].
      split; [exact IHlen|].
      apply Forall_cons_iff in IHall as [Hrun Hruns].
      constructor; [|exact Hruns].
      intros [Heq|Hin]; [|now apply Hrun].
      subst b. unfold Byte.eqb in Hb. discriminate.
Qed.

(** X10: at the default delimiter [iter_cstrings_raw] yields one string
    more than the image has 0x00 bytes, and none of the strings holds a
    0x00 byte. *)
Theorem iter_cstrings_raw_count (image : bytes) :
  exists raw,
    run (iter_cstrings_raw default_delimiter) image = Returns raw
    /\ length raw = S (count_byte x00 image)
    /\ forall off sin, In (off, sin) raw -> ~ In x00 sin.
Proof.
  eexists. unfold run. rewrite iter_cstrings_raw_default.
  split; [reflexivity|].
  cbn [Stream.open Stream.content].
  destruct (split_default_shape image) as [Hlen Hall].
  split.
  - rewrite <- Hlen.
    rewrite <- (map_snd_number_runs 0 default_delimiter
                  (split_from default_delimiter image 0)) at 2.
    symmetry. apply length_map.
  - intros off sin Hin. apply (in_map snd) in Hin.
    rewrite map_snd_number_runs in Hin. cbn [snd] in Hin.
    rewrite List.Forall_forall in Hall. now apply Hall.
Qed.

Lemma filter_twice {X} (f g : X -> bool) (l : list X) :
  List.filter f (List.filter g l) = List.filter (fun x => g x && f x) l.
Proof.
  induction l as [|a l IH]; cbn [List.filter]; [reflexivity|].
  destruct (g a); cbn [List.filter andb]; [|exact IH].
  destruct (f a); now rewrite IH.
Qed.

Lemma keep_cstring_higher (threshold threshold' : Z) (s : cstring) :
  threshold <= threshold' ->
  keep_cstring threshold' s
  = keep_cstring threshold s && (threshold' <=? blen (snd s)).
Proof.
  intros Hle. unfold keep_cstring.
  destruct (Z.ltb_spec (blen (snd s)) threshold');
    destruct (Z.ltb_spec (blen (snd s)) threshold);
    destruct (Z.leb_spec threshold' (blen (snd s))); try lia;
    try reflexivity;
    destruct (existsb _ (snd s)); reflexivity.
Qed.

(** X11: raising the threshold only drops strings: the strings yielded
    for a higher threshold are those yielded for the lower one that are
    long enough, with the same offsets and in the same order. *)
Theorem iter_cstrings_threshold_monotone (image : bytes)
    (threshold threshold' : Z) (out : list cstring)
    (Hle : threshold <= threshold')
    (Hout : run (iter_cstrings threshold) image = Returns out) :
  run (iter_cstrings threshold') image
  = Returns (List.filter (fun s => threshold' <=? blen (snd s)) out).
Proof.
  revert Hout. unfold run. rewrite !iter_cstrings_unfold.
  cbn [result_of]. intros Hout. injection Hout as <-.
  f_equal. rewrite filter_twice. apply filter_ext. intros s.
  apply keep_cstring_higher, Hle.
Qed.

Lemma iter_cstrings_threshold_monotone_witness :
  run (iter_cstrings 11) twin_image
  = Returns (List.filter (fun s => 11 <=? blen (snd s)) twin_strings).
Proof.
  apply (iter_cstrings_threshold_monotone twin_image 10 11 twin_strings).
  - lia.
  - vm_compute. reflexivity.
Defined.

(** ** More on the index and the votes *)

(** X15: the index holds under key k exactly the strings whose offset
    masked is k, in the order they were yielded; a key is present only
    with a non-empty bucket, and absent when no string has that masked
    offset. *)
Theorem build_index_buckets (MASK : Z) (strs : list cstring) (k : Z) :
  (forall bucket : list cstring,
     build_index MASK strs !! k = Some bucket
     <-> bucket <> []
         /\ bucket = List.filter (fun s => Z.land (fst s) MASK =? k) strs)
  /\ (build_index MASK strs !! k = None
      <-> forall s, In s strs -> Z.land (fst s) MASK <> k).
Proof.
  pose proof (build_index_lookup MASK strs k) as Hlookup.
  unfold bucket_of in Hlookup. unfold cstring in *.
  destruct (List.filter (fun s => Z.land (fst s) MASK =? k) strs)
    as [|s0 bucket0] eqn:Hfilter.
  - split.
    + intros bucket. split.
      * intros Hsome. congruence.
      * intros [Hne ->]. congruence.
    + split; [|intros _; exact Hlookup]. intros _ s Hin Hk.
      assert (Hs : In s (List.filter (fun s => Z.land (fst s) MASK =? k) strs))
        by (apply filter_In; split; [exact Hin|now apply Z.eqb_eq]).
      rewrite Hfilter in Hs. destruct Hs.
  - split.
    + intros bucket. split.
      * intros Hsome. split; congruence.
      * intros [_ ->]. exact Hlookup.
    + split; [congruence|]. intros Hnone. exfalso.
      assert (Hs : In s0 (List.filter (fun s => Z.land (fst s) MASK =? k) strs))
        by (rewrite Hfilter; left; reflexivity).
      apply filter_In in Hs as [Hin Hk]. apply (Hnone s0 Hin).
      now apply Z.eqb_eq.
Qed.

Lemma sum_weights_positive (M : gmap Z (list cstring)) (MASK : Z)
    (chunks : list Z) (b : Z) :
  0 < sum_Z (map (fun chk => weight M MASK chk b) chunks) ->
  exists chk, In chk chunks /\ 0 < weight M MASK chk b.
Proof.
  induction chunks as [|chk chunks IH]; cbn [map sum_Z fold_right];
    [lia|].
  fold (sum_Z (map (fun chk => weight M MASK chk b) chunks)).
  intros Hsum.
  destruct (Z.ltb_spec 0 (weight M MASK chk b)) as [Hpos|Hzero].
  - exists chk. split; [left; reflexivity|exact Hpos].
  - destruct IH as (chk' & Hin & Hpos); [lia|].
    exists chk'. split; [right; exact Hin|exact Hpos].
Qed.

Lemma weight_positive (M : gmap Z (list cstring)) (MASK chk b : Z) :
  0 < weight M MASK chk b ->
  exists bucket s,
    M !! Z.land chk MASK = Some bucket /\ In s bucket
    /\ b = chk - fst s /\ 0 <= b.
Proof.
  unfold weight.
  destruct (M !! Z.land chk MASK) as [bucket|]; [|lia].
  intros Hpos.
  destruct (pairs_for chk b bucket) as [|s pairs] eqn:Hpairs;
    [cbn [length] in Hpos; lia|].
  assert (Hs : In s (pairs_for chk b bucket))
    by (rewrite Hpairs; left; reflexivity).
  apply filter_In in Hs as [Hin Hs].
  apply andb_true_iff in Hs as [Hnonneg Hbase].
  apply Z.leb_le in Hnonneg. apply Z.eqb_eq in Hbase.
  exists bucket, s. repeat split; try assumption; lia.
Qed.

(** The keys of the votes are the differences, not negative, between a
    pointer word and a string of its bucket. *)
Lemma votes_keys (M : gmap Z (list cstring)) (MASK : Z) (chunks : list Z)
    (b : Z) :
  In b (counter_keys (votes M MASK chunks))
  <-> exists chk bucket s,
        In chk chunks /\ M !! Z.land chk MASK = Some bucket /\ In s bucket
        /\ b = chk - fst s /\ 0 <= b.
Proof.
  rewrite well_formed_keys by apply votes_well_formed.
  rewrite votes_get. split.
  - intros Hsum. apply sum_weights_positive in Hsum as (chk & Hin & Hpos).
    apply weight_positive in Hpos as (bucket & s & Hlookup & Hs & Hb & Hnonneg).
    exists chk, bucket, s. repeat split; assumption.
  - intros (chk & bucket & s & Hin & Hlookup & Hs & -> & Hnonneg).
    pose proof (weight_of_pair M MASK chk bucket s Hlookup Hs Hnonneg) as Hw.
    pose proof (sum_weights_member M MASK chunks chk (chk - fst s) Hin).
    destruct bucket; [destruct Hs|]. cbn [length] in Hw. lia.
Qed.

(** X12: the keys of the counter that [scan_file] returns are exactly
    the differences value - offset, not negative, between a pointer word
    of the image and a candidate string whose offset has the same masked
    low bits as the value. *)
Theorem scan_file_keys (image : bytes) (fuel : nat) (endian : byteorder)
    (pointer_size mask : Z) (c : counter)
    (Hscan : run (scan_file fuel endian pointer_size mask) image = Returns c) :
  exists MASK strs chunks,
    make_mask mask = Returns MASK
    /\ run (iter_cstrings default_threshold) image = Returns strs
    /\ run (chunkify fuel pointer_size endian) image = Returns chunks
    /\ forall b,
         In b (counter_keys c)
         <-> exists chk off str,
               In chk chunks /\ In (off, str) strs
               /\ Z.land chk MASK = Z.land off MASK
               /\ b = chk - off /\ 0 <= b.
Proof.
  apply scan_file_inversion in Hscan
    as (MASK & strs & chunks & Hmask & Hstrs & Hchunks & ->).
  exists MASK, strs, chunks. repeat (split; [assumption|]).
  intros b. rewrite votes_keys. split.
  - intros (chk & bucket & [off str] & Hin & Hlookup & Hs & Hb & Hnonneg).
    destruct (build_index_member _ _ _ _ _ Hlookup Hs) as [Hstr Hkey].
    exists chk, off, str. cbn [fst] in *.
    repeat split; try assumption. symmetry. exact Hkey.
  - intros (chk & off & str & Hin & Hstr & Hkey & Hb & Hnonneg).
    destruct (build_index_bucket MASK strs (off, str) Hstr)
      as (bucket & Hlookup & Hs).
    cbn [fst] in Hlookup. rewrite <- Hkey in Hlookup.
    exists chk, bucket, (off, str). repeat split; assumption.
Qed.

Lemma scan_file_keys_witness :
  exists MASK strs chunks,
    make_mask 4 = Returns MASK
    /\ run (iter_cstrings default_threshold) twin_image = Returns strs
    /\ run (chunkify 9 4 little) twin_image = Returns chunks
    /\ forall b,
         In b (counter_keys [(4112, 2); (4096, 2)])
         <-> exists chk off str,
               In chk chunks /\ In (off, str) strs
               /\ Z.land chk MASK = Z.land off MASK
               /\ b = chk - off /\ 0 <= b.
Proof.
  apply (scan_file_keys twin_image 9 little 4 4 [(4112, 2); (4096, 2)]).
  vm_compute. reflexivity.
Defined.

Lemma make_mask_inversion (mask MASK : Z) :
  make_mask mask = Returns MASK -> 0 <= mask /\ MASK = Z.ones mask.
Proof.
  intros Hmask.
  destruct (Z.ltb_spec mask 0) as [Hneg|Hpos].
  - unfold make_mask in Hmask.
    destruct (Z.ltb_spec mask 0); [discriminate|lia].
  - rewrite make_mask_ones in Hmask by exact Hpos.
    injection Hmask as <-. split; [exact Hpos|reflexivity].
Qed.

(** X13: every base in the counter that [scan_file] returns is a
    multiple of 2 ^ mask: the scan can only ever guess bases whose low
    mask bits are zero. *)
Theorem scan_file_bases_aligned (image : bytes) (fuel : nat)
    (endian : byteorder) (pointer_size mask : Z) (c : counter)
    (Hscan : run (scan_file fuel endian pointer_size mask) image = Returns c) :
  0 <= mask
  /\ forall b n, In (b, n) c -> b mod 2 ^ mask = 0 /\ Z.land b (2 ^ mask - 1) = 0.
Proof.
  apply scan_file_inversion in Hscan
    as (MASK & strs & chunks & Hmask & _ & _ & ->).
  apply make_mask_inversion in Hmask as [Hmask ->].
  split; [exact Hmask|]. intros b n Hin.
  apply (in_map fst) in Hin. cbn [fst] in Hin.
  apply votes_keys in Hin
    as (chk & bucket & s & _ & Hlookup & Hs & -> & _).
  destruct (build_index_member _ _ _ _ _ Hlookup Hs) as [_ Hkey].
  rewrite !Z.land_ones in Hkey by exact Hmask.
  assert (Hmod : (chk - fst s) mod 2 ^ mask = 0).
  { rewrite Zminus_mod, Hkey, Z.sub_diag. apply Z.mod_0_l.
    apply Z.pow_nonzero; lia. }
  split; [exact Hmod|].
  replace (2 ^ mask - 1) with (Z.ones mask) by (rewrite Z.ones_equiv; lia).
  rewrite Z.land_ones by exact Hmask. exact Hmod.
Qed.

Lemma scan_file_bases_aligned_witness :
  0 <= 4
  /\ forall b n, In (b, n) [(4112, 2); (4096, 2)] ->
       b mod 2 ^ 4 = 0 /\ Z.land b (2 ^ 4 - 1) = 0.
Proof.
  apply (scan_file_bases_aligned twin_image 9 little 4 4).
  vm_compute. reflexivity.
Defined.

Lemma chunkify_values_range (fuel : nat) (pointer_size : Z)
    (endian : byteorder) (s s' : Stream.t) (vals : list Z) :
  chunkify fuel pointer_size endian s = Returns (vals, s') ->
  0 < pointer_size
  /\ Forall (fun v => 0 <= v < 2 ^ (8 * pointer_size)) vals.
Proof.
  intros Hrun.
  destruct (Z.leb_spec pointer_size 0) as [Hle|Hpos].
  { destruct (chunkify_nonpositive fuel pointer_size endian s Hle)
      as [H|H]; rewrite H in Hrun; discriminate. }
  split; [exact Hpos|].
  revert s s' vals Hrun. induction fuel as [|fuel IH]; intros s s' vals Hrun;
    [discriminate|].
  rewrite chunkify_round in Hrun.
  destruct (Z.ltb_spec pointer_size (-1)); [lia|]. cbv zeta in Hrun.
  destruct (Z.ltb_spec pointer_size 0); [lia|].
  set (d := firstn (Z.to_nat pointer_size) (Stream.remaining s)) in *.
  destruct (Z.ltb_spec (blen d) pointer_size) as [Hshort|Hfull].
  - injection Hrun as <- _. constructor.
  - destruct (chunkify fuel pointer_size endian _) as [[rest s'']| |] eqn:Hrest;
      try discriminate.
    injection Hrun as <- _. constructor; [|eapply IH; exact Hrest].
    pose proof (int_from_bytes_range d endian) as Hrange.
    assert (Hlen : blen d = pointer_size).
    { assert (blen d <= pointer_size); [|lia].
      unfold blen, d. rewrite length_firstn. lia. }
    rewrite Hlen in Hrange. exact Hrange.
Qed.

Lemma iter_cstrings_within (image : bytes) (threshold : Z)
    (strs : list cstring) (s : cstring) :
  run (iter_cstrings threshold) image = Returns strs -> In s strs ->
  0 <= fst s /\ fst s + blen (snd s) <= blen image
  /\ threshold <= blen (snd s).
Proof.
  unfold run. rewrite iter_cstrings_unfold. cbn [result_of].
  intros Hstrs Hin. injection Hstrs as <-.
  apply filter_In in Hin as [Hin Hkeep].
  apply keep_cstring_true in Hkeep as [Hlen _].
  destruct (raw_cstrings_faithful image) as [Hall _]. cbn zeta in Hall.
  destruct (Hall s Hin) as [(H0 & _ & Hend) _]. auto.
Qed.

(** X14: every base in the counter that [scan_file] returns fits the
    pointer: it is at least 0, at most the value of a pointer word of the
    image, and so below 2 ^ (8 * pointer_size). *)
Theorem scan_file_bases_fit (image : bytes) (fuel : nat)
    (endian : byteorder) (pointer_size mask : Z) (c : counter)
    (Hscan : run (scan_file fuel endian pointer_size mask) image = Returns c) :
  forall b n, In (b, n) c -> 0 <= b < 2 ^ (8 * pointer_size).
Proof.
  intros b n Hin.
  apply scan_file_inversion in Hscan
    as (MASK & strs & chunks & _ & Hstrs & Hchunks & ->).
  apply (in_map fst) in Hin. cbn [fst] in Hin.
  apply votes_keys in Hin
    as (chk & bucket & s & Hchk & Hlookup & Hs & -> & Hnonneg).
  destruct (build_index_member _ _ _ _ _ Hlookup Hs) as [Hstr _].
  destruct (iter_cstrings_within _ _ _ _ Hstrs Hstr) as (Hoff & _).
  unfold run in Hchunks.
  destruct (chunkify fuel pointer_size endian (Stream.open image))
    as [[chunks' s']| |] eqn:Hrun; try discriminate.
  cbn [result_of] in Hchunks. injection Hchunks as ->.
  apply chunkify_values_range in Hrun as [_ Hrange].
  rewrite List.Forall_forall in Hrange. specialize (Hrange chk Hchk).
  cbn beta in Hrange. lia.
Qed.

Lemma scan_file_bases_fit_witness :
  Forall (fun kv => 0 <= fst kv < 2 ^ (8 * 4)) [(4112, 2); (4096, 2)].
Proof.
  apply List.Forall_forall. intros [b n] Hin.
  refine (scan_file_bases_fit twin_image 9 little 4 4
            [(4112, 2); (4096, 2)] _ b n Hin).
  vm_compute. reflexivity.
Defined.

(** With no candidate string the counter is empty and [main] fails. *)
Lemma no_cstring_no_base (image : bytes) (fuel : nat) (endian : byteorder)
    (pointer_size mask : Z) (verbose : bool) :
  run (iter_cstrings default_threshold) image = Returns [] ->
  pointer_size = 4 \/ pointer_size = 8 -> 0 <= mask ->
  blen image / pointer_size < Z.of_nat fuel ->
  run (scan_file fuel endian pointer_size mask) image = Returns []
  /\ run (main fuel endian pointer_size mask verbose) image
     = Raises IndexError.
Proof.
  intros Hnone Hsize Hmask Hfuel.
  assert (Hscan : run (scan_file fuel endian pointer_size mask) image
                  = Returns []).
  { destruct (scan_file_returns image fuel endian pointer_size mask)
      as (strs & chunks & Hstrs & _ & _ & Hscan); [exact Hmask|lia|exact Hfuel|].
    rewrite Hnone in Hstrs. injection Hstrs as <-.
    rewrite Hscan. f_equal. apply votes_from_no_pair.
    intros chk bucket s _ Hlookup. cbn in Hlookup.
    rewrite lookup_empty in Hlookup. discriminate. }
  split; [exact Hscan|].
  rewrite main_unfold, Hscan by exact Hsize. reflexivity.
Qed.

(** X19: an image shorter than the threshold of 10 bytes holds no
    candidate string, so for every accepted pointer size and every mask
    width that is not negative the counter is empty and [main] ends in
    IndexError. *)
Theorem short_image_has_no_base (image : bytes) (fuel : nat)
    (endian : byteorder) (pointer_size mask : Z) (verbose : bool)
    (Hshort : blen image < default_threshold)
    (Hsize : pointer_size = 4 \/ pointer_size = 8)
    (Hmask : 0 <= mask)
    (Hfuel : blen image / pointer_size < Z.of_nat fuel) :
  run (iter_cstrings default_threshold) image = Returns []
  /\ run (scan_file fuel endian pointer_size mask) image = Returns []
  /\ run (main fuel endian pointer_size mask verbose) image
     = Raises IndexError.
Proof.
  assert (Hnone : run (iter_cstrings default_threshold) image = Returns []).
  { destruct (run (iter_cstrings default_threshold) image)
      as [strs| |] eqn:Hstrs.
    - destruct strs as [|s strs]; [reflexivity|exfalso].
      destruct (iter_cstrings_within _ _ _ s Hstrs) as (H0 & Hend & Hlen);
        [left; reflexivity|lia].
    - unfold run in Hstrs. rewrite iter_cstrings_unfold in Hstrs. discriminate.
    - unfold run in Hstrs. rewrite iter_cstrings_unfold in Hstrs. discriminate. }
  split; [exact Hnone|].
  apply no_cstring_no_base; assumption.
Qed.

Lemma short_image_has_no_base_witness :
  run (iter_cstrings default_threshold) (list_byte_of_string "HELLO")
  = Returns []
  /\ run (scan_file 2 big 8 16) (list_byte_of_string "HELLO") = Returns []
  /\ run (main 2 big 8 16 true) (list_byte_of_string "HELLO")
     = Raises IndexError.
Proof.
  apply (short_image_has_no_base (list_byte_of_string "HELLO") 2 big 8 16 true).
  - vm_compute. reflexivity.
  - right. reflexivity.
  - lia.
  - vm_compute. reflexivity.
Defined.

(** ** most_common and main *)

Lemma insert_desc_permutation (kv : Z * Z) (l : list (Z * Z)) :
  Permutation (insert_desc kv l) (kv :: l).
Proof.
  induction l as [|kv' l IH]; cbn [insert_desc]; [reflexivity|].
  destruct (snd kv' <=? snd kv); [reflexivity|].
  rewrite IH. apply perm_swap.
Qed.

Lemma sorted_desc_permutation (c : counter) : Permutation (sorted_desc c) c.
Proof.
  unfold sorted_desc.
  induction c as [|kv c IH]; cbn [fold_right]; [reflexivity|].
  rewrite insert_desc_permutation. now constructor.
Qed.

Lemma insert_desc_sorted (kv : Z * Z) (l : list (Z * Z)) :
  StronglySorted count_ge l -> StronglySorted count_ge (insert_desc kv l).
Proof.
  induction 1 as [|kv' l Hsorted IH Hall]; cbn [insert_desc].
  - repeat constructor.
  - destruct (Z.leb_spec (snd kv') (snd kv)) as [Hle|Hgt].
    + constructor; [constructor; assumption|].
      constructor; [exact Hle|].
      eapply List.Forall_impl; [|exact Hall].
      unfold count_ge. intros x Hx. lia.
    + constructor; [exact IH|].
      apply List.Forall_forall. intros x Hx.
      apply (Permutation_in _ (insert_desc_permutation kv l)) in Hx.
      destruct Hx as [<-|Hx]; [unfold count_ge; lia|].
      rewrite List.Forall_forall in Hall. now apply Hall.
Qed.

Lemma sorted_desc_sorted (c : counter) :
  StronglySorted count_ge (sorted_desc c).
Proof.
  unfold sorted_desc.
  induction c as [|kv c IH]; cbn [fold_right]; [constructor|].
  apply insert_desc_sorted, IH.
Qed.

(** The first item of the sorted list is the first item of the counter
    with the greatest count. *)
Lemma sorted_desc_head (c : counter) :
  match sorted_desc c with
  | [] => c = []
  | kv :: _ =>
      exists earlier later,
        c = earlier ++ kv :: later
        /\ Forall (fun x => snd x < snd kv) earlier
        /\ Forall (fun x => snd x <= snd kv) later
  end.
Proof.
  unfold sorted_desc.
  induction c as [|a c IH]; cbn [fold_right]; [reflexivity|].
  destruct (fold_right insert_desc [] c) as [|kv l] eqn:Hsorted;
    cbn [insert_desc].
  - subst c. exists [], []. repeat split; constructor.
  - destruct IH as (earlier & later & -> & Hearlier & Hlater).
    destruct (Z.leb_spec (snd kv) (snd a)) as [Hle|Hgt].
    + exists [], (earlier ++ kv :: later).
      split; [reflexivity|]. split; [constructor|].
      apply Forall_app. split; [|constructor].
      * eapply List.Forall_impl; [|exact Hearlier]. intros x Hx. cbn beta in *. lia.
      * exact Hle.
      * eapply List.Forall_impl; [|exact Hlater]. intros x Hx. cbn beta in *. lia.
    + exists (a :: earlier), later.
      split; [reflexivity|]. split; [|exact Hlater].
      constructor; [lia|exact Hearlier].
Qed.

Lemma most_common_one (c : counter) :
  most_common 1 c = match sorted_desc c with
                    | [] => []
                    | kv :: _ => [kv]
                    end.
Proof. unfold most_common. destruct (sorted_desc c); reflexivity. Qed.

Lemma sorted_desc_nonempty (c : counter) : c <> [] -> sorted_desc c <> [].
Proof.
  intros Hc Hnil. apply Hc.
  apply Permutation_nil. rewrite <- Hnil.
  apply sorted_desc_permutation.
Qed.

(** What [main] did when it returned. *)
Lemma main_inversion (image : bytes) (fuel : nat) (endian : byteorder)
    (pointer_size mask : Z) (verbose : bool) (out : printed) :
  run (main fuel endian pointer_size mask verbose) image = Returns out ->
  exists c best n rest,
    (pointer_size = 4 \/ pointer_size = 8)
    /\ run (scan_file fuel endian pointer_size mask) image = Returns c
    /\ sorted_desc c = (best, n) :: rest
    /\ out = if verbose then PrintTable (most_common 10 c) else PrintBest best.
Proof.
  intros Hmain.
  assert (Hsize : pointer_size = 4 \/ pointer_size = 8).
  { unfold run, main in Hmain.
    destruct (Z.eqb_spec pointer_size 4); [tauto|].
    destruct (Z.eqb_spec pointer_size 8); [tauto|]. discriminate. }
  rewrite main_unfold in Hmain by exact Hsize.
  destruct (run (scan_file fuel endian pointer_size mask) image)
    as [c| |]; try discriminate.
  rewrite most_common_one in Hmain.
  destruct (sorted_desc c) as [|[best n] rest] eqn:Hsorted; [discriminate|].
  injection Hmain as <-.
  exists c, best, n, rest. repeat split; assumption || reflexivity.
Qed.

(** X17: the base that [main] prints has the greatest count of the
    counter, and among the bases with that count it is the one that
    entered the counter first. *)
Theorem main_prints_first_maximum (image : bytes) (fuel : nat)
    (endian : byteorder) (pointer_size mask : Z) (best : Z)
    (Hmain : run (main fuel endian pointer_size mask false) image
             = Returns (PrintBest best)) :
  exists c n earlier later,
    run (scan_file fuel endian pointer_size mask) image = Returns c
    /\ c = earlier ++ (best, n) :: later
    /\ counter_get c best = n
    /\ (forall k, counter_get c k <= counter_get c best)
    /\ (forall k m, In (k, m) earlier -> m < n)
    /\ (forall k m, In (k, m) later -> m <= n).
Proof.
  apply main_inversion in Hmain
    as (c & best' & n & rest & _ & Hscan & Hsorted & Hout).
  injection Hout as <-.
  pose proof (sorted_desc_head c) as Hhead. rewrite Hsorted in Hhead.
  destruct Hhead as (earlier & later & Hc & Hearlier & Hlater).
  cbn [snd] in *.
  exists c, n, earlier, later. split; [exact Hscan|]. split; [exact Hc|].
  assert (Hwf : well_formed c).
  { apply scan_file_inversion in Hscan as (? & ? & ? & _ & _ & _ & ->).
    apply votes_well_formed. }
  assert (Hbest : counter_get c best = n).
  { apply (counter_items c best n); [apply Hwf|].
    rewrite Hc. apply in_or_app. right. left. reflexivity. }
  rewrite List.Forall_forall in Hearlier, Hlater.
  split; [exact Hbest|]. split; [|split].
  - intros k. rewrite Hbest.
    destruct (in_dec Z.eq_dec k (counter_keys c)) as [Hk|Hk].
    + assert (Hitem : In (k, counter_get c k) c)
        by (apply counter_items; [apply Hwf|auto]).
      remember (counter_get c k) as m eqn:Hm.
      rewrite Hc in Hitem. apply in_app_or in Hitem as [Hin|[Heq|Hin]].
      * apply Hearlier in Hin. cbn [snd] in Hin. lia.
      * injection Heq as _ <-. lia.
      * apply Hlater in Hin. cbn [snd] in Hin. exact Hin.
    + rewrite (counter_get_missing c k Hk).
      destruct Hwf as [_ Hpos].
      assert (In best (counter_keys c)).
      { rewrite Hc. unfold counter_keys. rewrite map_app.
        apply in_or_app. right. left. reflexivity. }
      destruct (Hpos best) as [_ Hcount]; [assumption|].
      rewrite Hbest in Hcount. lia.
  - intros k m Hin. apply Hearlier in Hin. exact Hin.
  - intros k m Hin. apply Hlater in Hin. exact Hin.
Qed.

Lemma main_prints_first_maximum_witness :
  exists c n earlier later,
    run (scan_file 9 little 4 4) twin_image = Returns c
    /\ c = earlier ++ (4112, n) :: later
    /\ counter_get c 4112 = n
    /\ (forall k, counter_get c k <= counter_get c 4112)
    /\ (forall k m, In (k, m) earlier -> m < n)
    /\ (forall k m, In (k, m) later -> m <= n).
Proof.
  apply (main_prints_first_maximum twin_image 9 little 4 4 4112).
  vm_compute. reflexivity.
Defined.

Lemma StronglySorted_app_inv {X} (R : X -> X -> Prop) (l1 l2 : list X) :
  StronglySorted R (l1 ++ l2) ->
  StronglySorted R l1 /\ forall x y, In x l1 -> In y l2 -> R x y.
Proof.
  induction l1 as [|a l1 IH]; cbn [app]; intros Hsorted.
  - split; [constructor|intros x y []].
  - apply StronglySorted_inv in Hsorted as [Hsorted Hall].
    destruct (IH Hsorted) as [Hl1 Hcross].
    apply Forall_app in Hall as [Hall1 Hall2].
    split; [constructor; assumption|].
    intros x y [<-|Hx] Hy; [|now apply Hcross].
    rewrite List.Forall_forall in Hall2. now apply Hall2.
Qed.

(** X18: the table that [main --verbose] prints has min(10, number of
    bases) rows, each an item of the counter and no base twice, in
    descending order of count; every item left out has a count no
    greater than any row; and the first row is the base that [main]
    prints without [--verbose]. *)
Theorem main_verbose_table (image : bytes) (fuel : nat)
    (endian : byteorder) (pointer_size mask : Z) (rows : list (Z * Z))
    (Hmain : run (main fuel endian pointer_size mask true) image
             = Returns (PrintTable rows)) :
  exists c,
    run (scan_file fuel endian pointer_size mask) image = Returns c
    /\ length rows = Nat.min 10 (length c)
    /\ StronglySorted (fun row1 row2 => snd row2 <= snd row1) rows
    /\ (forall row, In row rows -> In row c)
    /\ List.NoDup (map fst rows)
    /\ (forall kv, In kv c ->
          In kv rows \/ forall row, In row rows -> snd kv <= snd row)
    /\ exists best n others,
         rows = (best, n) :: others
         /\ run (main fuel endian pointer_size mask false) image
            = Returns (PrintBest best).
Proof.
  apply main_inversion in Hmain
    as (c & best & n & rest & Hsize & Hscan & Hsorted & Hout).
  injection Hout as ->.
  exists c. split; [exact Hscan|].
  pose proof (sorted_desc_permutation c) as Hperm.
  pose proof (sorted_desc_sorted c) as Hdesc.
  unfold most_common.
  rewrite <- (firstn_skipn 10 (sorted_desc c)) in Hperm, Hdesc.
  apply StronglySorted_app_inv in Hdesc as [Hrows Hcross].
  split; [|split; [|split; [|split; [|split]]]].
  - rewrite length_firstn, (Permutation_length (sorted_desc_permutation c)).
    reflexivity.
  - exact Hrows.
  - intros row Hrow. apply (Permutation_in _ Hperm).
    apply in_or_app. left. exact Hrow.
  - assert (Hwf : well_formed c).
    { apply scan_file_inversion in Hscan as (? & ? & ? & _ & _ & _ & ->).
      apply votes_well_formed. }
    destruct Hwf as [Hnd _]. unfold counter_keys in Hnd.
    apply (Permutation_NoDup (Permutation_map fst (Permutation_sym Hperm)))
      in Hnd.
    rewrite map_app in Hnd. apply NoDup_app_remove_r in Hnd. exact Hnd.
  - intros kv Hkv. apply (Permutation_in _ (Permutation_sym Hperm)) in Hkv.
    apply in_app_or in Hkv as [Hin|Hout]; [left; exact Hin|].
    right. intros row Hrow. apply (Hcross row kv Hrow Hout).
  - exists best, n, (firstn 9 rest). split.
    + rewrite Hsorted. reflexivity.
    + rewrite main_unfold, Hscan, most_common_one, Hsorted by exact Hsize.
      reflexivity.
Qed.

Lemma main_verbose_table_witness :
  exists c,
    run (scan_file 9 little 4 4) twin_image = Returns c
    /\ length [(4112, 2); (4096, 2)] = Nat.min 10 (length c)
    /\ StronglySorted (fun row1 row2 => snd row2 <= snd row1)
         [(4112, 2); (4096, 2)]
    /\ (forall row, In row [(4112, 2); (4096, 2)] -> In row c)
    /\ List.NoDup (map fst [(4112, 2); (4096, 2)])
    /\ (forall kv, In kv c ->
          In kv [(4112, 2); (4096, 2)]
          \/ forall row, In row [(4112, 2); (4096, 2)] -> snd kv <= snd row)
    /\ exists best n others,
         [(4112, 2); (4096, 2)] = (best, n) :: others
         /\ run (main 9 little 4 4 false) twin_image
            = Returns (PrintBest best).
Proof.
  apply (main_verbose_table twin_image 9 little 4 4).
  vm_compute. reflexivity.
Defined.

(** X16: with a mask width between -64 and 64 (a much wider one can
    exhaust the memory of the runtime) [main] always ends, and in one of
    four ways.  A pointer size other than 4 and 8 is refused by the
    parser; otherwise a negative mask width ends in ValueError; otherwise
    the scan returns a counter, and [main] ends in IndexError when it is
    empty and prints when it is not (the most common base, or with
    [--verbose] the table). *)
Theorem main_outcomes (image : bytes) (fuel : nat) (endian : byteorder)
    (pointer_size mask : Z) (verbose : bool)
    (Hwidth : -64 <= mask <= 64)
    (Hfuel : blen image / 4 < Z.of_nat fuel) :
  run (main fuel endian pointer_size mask verbose) image <> OutOfFuel
  /\ (pointer_size <> 4 -> pointer_size <> 8 ->
      run (main fuel endian pointer_size mask verbose) image
      = Raises SystemExit)
  /\ (pointer_size = 4 \/ pointer_size = 8 -> mask < 0 ->
      run (main fuel endian pointer_size mask verbose) image
      = Raises ValueError)
  /\ (pointer_size = 4 \/ pointer_size = 8 -> 0 <= mask ->
      exists c,
        run (scan_file fuel endian pointer_size mask) image = Returns c
        /\ (c = [] ->
            run (main fuel endian pointer_size mask verbose) image
            = Raises IndexError)
        /\ (c <> [] ->
            exists best n,
              most_common 1 c = [(best, n)]
              /\ run (main fuel endian pointer_size mask verbose) image
                 = Returns (if verbose then PrintTable (most_common 10 c)
                            else PrintBest best))).
Proof.
  assert (Hrefused : pointer_size <> 4 -> pointer_size <> 8 ->
            run (main fuel endian pointer_size mask verbose) image
            = Raises SystemExit).
  { intros H4 H8. unfold run, main.
    destruct (Z.eqb_spec pointer_size 4); [contradiction|].
    destruct (Z.eqb_spec pointer_size 8); [contradiction|]. reflexivity. }
  assert (Hnegative : pointer_size = 4 \/ pointer_size = 8 -> mask < 0 ->
            run (main fuel endian pointer_size mask verbose) image
            = Raises ValueError).
  { intros Hsize Hmask. rewrite main_unfold by exact Hsize.
    unfold run. rewrite scan_file_unfold. unfold make_mask.
    destruct (Z.ltb_spec mask 0); [reflexivity|lia]. }
  assert (Hscans : pointer_size = 4 \/ pointer_size = 8 -> 0 <= mask ->
      exists c,
        run (scan_file fuel endian pointer_size mask) image = Returns c
        /\ (c = [] ->
            run (main fuel endian pointer_size mask verbose) image
            = Raises IndexError)
        /\ (c <> [] ->
            exists best n,
              most_common 1 c = [(best, n)]
              /\ run (main fuel endian pointer_size mask verbose) image
                 = Returns (if verbose then PrintTable (most_common 10 c)
                            else PrintBest best))).
  { intros Hsize Hmask.
    destruct (scan_file_returns image fuel endian pointer_size mask)
      as (strs & chunks & _ & _ & _ & Hscan); [exact Hmask|lia| |].
    { destruct Hsize as [-> | ->]; [exact Hfuel|].
      unfold blen in *.
      pose proof (Z.div_le_compat_l (Z.of_nat (length image)) 4 8). lia. }
    eexists. split; [exact Hscan|].
    rewrite main_unfold, Hscan by exact Hsize.
    split.
    - intros ->. reflexivity.
    - intros Hne. rewrite most_common_one.
      destruct (sorted_desc _) as [|[best n] rest] eqn:Hsorted.
      + exfalso. revert Hsorted. apply sorted_desc_nonempty, Hne.
      + exists best, n. split; reflexivity. }
  split; [|split; [exact Hrefused|split; [exact Hnegative|exact Hscans]]].
  destruct (Z.eq_dec pointer_size 4) as [H4|H4];
    [|destruct (Z.eq_dec pointer_size 8) as [H8|H8]].
  3: { rewrite Hrefused by assumption. discriminate. }
  all: assert (Hsize : pointer_size = 4 \/ pointer_size = 8) by tauto.
  all: destruct (Z.ltb_spec mask 0) as [Hneg|Hmask];
    [rewrite Hnegative by assumption; discriminate|].
  all: destruct (Hscans Hsize Hmask) as (c & _ & Hempty & Hfull).
  all: destruct c as [|kv c];
    [rewrite Hempty by reflexivity; discriminate|].
  all: destruct Hfull as (best & n & _ & ->); discriminate.
Qed.

Lemma main_outcomes_witness :
  run (main 5 little 4 12 false) hello_image <> OutOfFuel
  /\ (4 <> 4 -> 4 <> 8 ->
      run (main 5 little 4 12 false) hello_image = Raises SystemExit)
  /\ (4 = 4 \/ 4 = 8 -> 12 < 0 ->
      run (main 5 little 4 12 false) hello_image = Raises ValueError)
  /\ (4 = 4 \/ 4 = 8 -> 0 <= 12 ->
      exists c,
        run (scan_file 5 little 4 12) hello_image = Returns c
        /\ (c = [] ->
            run (main 5 little 4 12 false) hello_image = Raises IndexError)
        /\ (c <> [] ->
            exists best n,
              most_common 1 c = [(best, n)]
              /\ run (main 5 little 4 12 false) hello_image
                 = Returns (if false then PrintTable (most_common 10 c)
                            else PrintBest best))).
Proof.
  apply (main_outcomes hello_image 5 little 4 12 false).
  - lia.
  - vm_compute. reflexivity.
Defined.

(** ** The counts in closed form *)

Lemma pairs_for_distinct (chk b : Z) (bucket : list cstring) :
  List.NoDup (map fst bucket) ->
  Z.of_nat (length (pairs_for chk b bucket))
  = if points_at chk b bucket then 1 else 0.
Proof.
  intros Hnd. unfold points_at.
  destruct (Z.leb_spec 0 b) as [Hb|Hb]; cbn [andb].
  - destruct (existsb (fun s => chk - fst s =? b) bucket) eqn:Hex.
    + apply existsb_exists in Hex as (s & Hin & Hs).
      apply Z.eqb_eq in Hs. subst b.
      rewrite pairs_for_own_base by exact Hb.
      rewrite one_string_per_offset by assumption. reflexivity.
    + unfold pairs_for. rewrite filter_none; [reflexivity|].
      intros s Hin. apply andb_false_iff. right.
      destruct (chk - fst s =? b) eqn:Hs; [|reflexivity].
      assert (existsb (fun s => chk - fst s =? b) bucket = true);
        [|congruence].
      apply existsb_exists. exists s. split; assumption.
  - unfold pairs_for. rewrite filter_none; [reflexivity|].
    intros s Hin. apply andb_false_iff.
    destruct (Z.eqb_spec (chk - fst s) b); [left|right; reflexivity].
    apply Z.leb_gt. lia.
Qed.

(** X20: the count that [scan_file] returns for a base is the sum, over
    the pointer words of the image that give this base with a string of
    their bucket, of the number of strings in that bucket. *)
Theorem scan_file_counts (image : bytes) (fuel : nat) (endian : byteorder)
    (pointer_size mask : Z) (c : counter)
    (Hscan : run (scan_file fuel endian pointer_size mask) image = Returns c) :
  exists MASK strs chunks,
    make_mask mask = Returns MASK
    /\ run (iter_cstrings default_threshold) image = Returns strs
    /\ run (chunkify fuel pointer_size endian) image = Returns chunks
    /\ forall b,
         counter_get c b
         = sum_Z
             (map (fun chk =>
                     match build_index MASK strs !! Z.land chk MASK with
                     | Some bucket =>
                         if points_at chk b bucket
                         then Z.of_nat (length bucket) else 0
                     | None => 0
                     end) chunks).
Proof.
  apply scan_file_inversion in Hscan
    as (MASK & strs & chunks & Hmask & Hstrs & Hchunks & ->).
  exists MASK, strs, chunks. repeat (split; [assumption|]).
  intros b. rewrite votes_get. f_equal. apply map_ext. intros chk.
  unfold weight.
  destruct (build_index MASK strs !! Z.land chk MASK) as [bucket|] eqn:Hlookup;
    [|reflexivity].
  rewrite pairs_for_distinct
    by (eapply index_buckets_distinct; [exact Hstrs|exact Hlookup]).
  destruct (points_at chk b bucket); lia.
Qed.

Lemma scan_file_counts_witness :
  exists MASK strs chunks,
    make_mask 4 = Returns MASK
    /\ run (iter_cstrings default_threshold) twin_image = Returns strs
    /\ run (chunkify 9 4 little) twin_image = Returns chunks
    /\ forall b,
         counter_get [(4112, 2); (4096, 2)] b
         = sum_Z
             (map (fun chk =>
                     match build_index MASK strs !! Z.land chk MASK with
                     | Some bucket =>
                         if points_at chk b bucket
                         then Z.of_nat (length bucket) else 0
                     | None => 0
                     end) chunks).
Proof.
  apply (scan_file_counts twin_image 9 little 4 4 [(4112, 2); (4096, 2)]).
  vm_compute. reflexivity.
Defined.

(** X21: the counter that [scan_file] returns holds every base once, and
    no count in it is zero or negative: a base enters the counter with
    the size of a non-empty bucket and only grows. *)
Theorem scan_file_counts_positive (image : bytes) (fuel : nat)
    (endian : byteorder) (pointer_size mask : Z) (c : counter)
    (Hscan : run (scan_file fuel endian pointer_size mask) image = Returns c) :
  List.NoDup (map fst c)
  /\ forall b n, In (b, n) c -> 1 <= n /\ counter_get c b = n.
Proof.
  apply scan_file_inversion in Hscan as (MASK & strs & chunks & _ & _ & _ & ->).
  destruct (votes_well_formed (build_index MASK strs) MASK chunks)
    as [Hnd Hpos].
  split; [exact Hnd|]. intros b n Hin.
  apply counter_items in Hin as [Hkey Hget]; [|exact Hnd].
  destruct (Hpos b Hkey) as [_ Hcount]. split; [lia|exact Hget].
Qed.

Lemma scan_file_counts_positive_witness :
  List.NoDup (map fst [(4112, 2); (4096, 2)])
  /\ forall b n, In (b, n) [(4112, 2); (4096, 2)] ->
       1 <= n /\ counter_get [(4112, 2); (4096, 2)] b = n.
Proof.
  apply (scan_file_counts_positive twin_image 9 little 4 4).
  vm_compute. reflexivity.
Defined.

(** ** One more pointer word at the end of an image *)

Lemma window_in_front (image word : bytes) (start size : nat) :
  (start + size <= length image)%nat ->
  window (image ++ word) start size = window image start size.
Proof.
  intros Hfit. unfold window.
  rewrite skipn_app, firstn_app, length_skipn.
  replace (start - length image)%nat with 0%nat by lia.
  replace (size - (length image - start))%nat with 0%nat by lia.
  rewrite firstn_O. apply app_nil_r.
Qed.

Lemma window_at_end (image word : bytes) :
  window (image ++ word) (length image) (length word) = word.
Proof.
  unfold window. rewrite skipn_app, skipn_all, Nat.sub_diag, skipn_O.
  cbn [app]. apply firstn_all.
Qed.

(** The pointer words of an image of whole windows with one more window
    at its end are those of the image and then the new one. *)
Lemma decoded_windows_one_more (image word : bytes) (n : nat)
    (endian : byteorder) :
  (0 < n)%nat -> length word = n -> (length image mod n = 0)%nat ->
  decoded_windows (image ++ word) 0 n endian
  = decoded_windows image 0 n endian ++ [int_from_bytes word endian].
Proof.
  intros Hn Hword Hwhole.
  assert (Hlen : length image = (length image / n * n)%nat).
  { pose proof (Nat.div_mod_eq (length image) n). lia. }
  unfold decoded_windows. rewrite !Nat.sub_0_r, length_app, Hword.
  replace (length image + n)%nat with (length image + 1 * n)%nat by lia.
  rewrite Nat.div_add by lia. rewrite Nat.add_1_r, seq_S, map_app.
  cbn [map Nat.add]. f_equal.
  - apply map_ext_in. intros i Hi. apply in_seq in Hi.
    rewrite window_in_front; [reflexivity|]. nia.
  - f_equal. rewrite <- Hlen, <- Hword. now rewrite window_at_end.
Qed.

Lemma chunkify_run_positive (image : bytes) (fuel : nat) (pointer_size : Z)
    (endian : byteorder) (chunks : list Z) :
  run (chunkify fuel pointer_size endian) image = Returns chunks ->
  0 < pointer_size.
Proof.
  unfold run.
  destruct (chunkify fuel pointer_size endian (Stream.open image))
    as [[vals s']| |] eqn:Hrun; try discriminate.
  intros _. now apply chunkify_values_range in Hrun.
Qed.

Lemma split_from_default_nonempty (data : bytes) :
  split_from default_delimiter data 0 <> [].
Proof.
  destruct data as [|b rest]; [discriminate|].
  rewrite split_from_default_cons.
  destruct (Byte.eqb x00 b); [discriminate|].
  destruct (split_from default_delimiter rest 0); discriminate.
Qed.

(** The runs of data with a 0x00 byte in it: those before the byte, then
    those after it. *)
Lemma split_from_default_app (body tail : bytes) :
  split_from default_delimiter (body ++ x00 :: tail) 0
  = split_from default_delimiter body 0 ++ split_from default_delimiter tail 0.
Proof.
  induction body as [|b body IH].
  - cbn [app]. rewrite split_from_default_cons. reflexivity.
  - cbn [app]. rewrite !split_from_default_cons, IH.
    destruct (Byte.eqb x00 b); [reflexivity|].
    destruct (split_from default_delimiter body 0) as [|run runs] eqn:Hsplit;
      [|reflexivity].
    now apply split_from_default_nonempty in Hsplit.
Qed.

Lemma number_runs_app (delimiter : bytes) (l1 l2 : list bytes) (pos : Z) :
  exists pos',
    number_runs pos delimiter (l1 ++ l2)
    = number_runs pos delimiter l1 ++ number_runs pos' delimiter l2.
Proof.
  revert pos. induction l1 as [|sin l1 IH]; intros pos.
  - exists pos. reflexivity.
  - destruct (IH (pos + (blen sin + blen delimiter))) as [pos' Heq].
    exists pos'. cbn [number_runs app]. now rewrite Heq.
Qed.

Lemma split_from_default_short (data : bytes) :
  Forall (fun sin => blen sin <= blen data)
    (split_from default_delimiter data 0).
Proof.
  induction data as [|b rest IH].
  - repeat constructor. cbn. lia.
  - rewrite split_from_default_cons, blen_cons.
    assert (Hrest : Forall (fun sin => blen sin <= blen rest + 1)
                      (split_from default_delimiter rest 0)).
    { eapply List.Forall_impl; [|exact IH]. cbn beta. intros; lia. }
    destruct (Byte.eqb x00 b).
    + constructor; [unfold blen; cbn [length]; lia|exact Hrest].
    + destruct (split_from default_delimiter rest 0) as [|run runs].
      * repeat constructor. unfold blen; cbn [length]. lia.
      * inversion IH; subst. inversion Hrest; subst.
        constructor; [rewrite blen_cons; lia|assumption].
Qed.

Lemma filter_short_runs (threshold bound pos : Z) (runs : list bytes) :
  bound < threshold ->
  Forall (fun sin => blen sin <= bound) runs ->
  List.filter (keep_cstring threshold)
    (number_runs pos default_delimiter runs) = [].
Proof.
  intros Hbound Hruns. revert pos.
  induction Hruns as [|sin runs Hsin _ IH]; intros pos; [reflexivity|].
  cbn [number_runs List.filter]. unfold keep_cstring at 1. cbn [snd].
  destruct (Z.ltb_spec (blen sin) threshold); [apply IH|lia].
Qed.

(** Bytes after a last 0x00 byte, fewer than the threshold, leave the
    candidate strings as they are: a pointer word of 4 or 8 bytes at the
    end of an image that ends with a 0x00 byte does. *)
Lemma iter_cstrings_ignores_short_tail (body word : bytes) (threshold : Z) :
  blen word < threshold ->
  run (iter_cstrings threshold) ((body ++ [x00]) ++ word)
  = run (iter_cstrings threshold) (body ++ [x00]).
Proof.
  intros Hshort. unfold run.
  rewrite !iter_cstrings_unfold. cbn [result_of Stream.open Stream.content].
  f_equal. rewrite <- app_assoc. cbn [app].
  rewrite !split_from_default_app.
  destruct (number_runs_app default_delimiter
              (split_from default_delimiter body 0)
              (split_from default_delimiter word 0) 0) as [pos1 ->].
  destruct (number_runs_app default_delimiter
              (split_from default_delimiter body 0)
              (split_from default_delimiter [] 0) 0) as [pos2 ->].
  rewrite !List.filter_app. f_equal.
  rewrite (filter_short_runs threshold (blen word) pos1)
    by (exact Hshort || apply split_from_default_short).
  rewrite (filter_short_runs threshold (blen word) pos2); [reflexivity|exact Hshort|].
  repeat constructor. unfold blen; cbn [length]. lia.
Qed.

(** C2, amended: a pair of a pointer and a string with a candidate base
    that is not negative contributes as many votes as its bucket has
    strings.  The counter a scan returns is the voting loop run over the
    pointer words of the image, and at each pointer word whose masked low
    bits select a bucket of k strings the count of every base b grows by
    k for each string of the bucket with value - offset = b >= 0, the
    counts by k * j in total, j being the number of strings of the bucket
    whose base is not negative.  Take an image whose length is a multiple
    of the pointer size, and add one pointer word at its end that leaves
    the candidate strings as they are (as it does after an image that
    ends with a 0x00 byte, [iter_cstrings_ignores_short_tail]).  The scan
    of the longer image returns the counter of the shorter one with one
    more step of the voting loop: when the masked low bits of the new
    pointer word select a bucket of k strings, the count of the base of
    each pair it forms grows by exactly k; when they select no bucket
    the counter is unchanged; in neither case does a count go down. *)
Theorem appended_pointer_word_adds_bucket_size
    (image word : bytes) (fuel : nat) (endian : byteorder)
    (pointer_size mask : Z) (strs : list cstring) (c : counter)
    (Hword : blen word = pointer_size)
    (Hwhole : blen image mod pointer_size = 0)
    (Hfuel : blen image / pointer_size + 1 < Z.of_nat fuel)
    (Hstrs : run (iter_cstrings default_threshold) image = Returns strs)
    (Hsame : run (iter_cstrings default_threshold) (image ++ word)
             = Returns strs)
    (Hscan : run (scan_file fuel endian pointer_size mask) image = Returns c) :
  exists MASK chunks c',
    make_mask mask = Returns MASK
    /\ run (chunkify fuel pointer_size endian) image = Returns chunks
    /\ c = votes (build_index MASK strs) MASK chunks
    /\ (forall before chk after bucket,
          chunks = before ++ chk :: after ->
          build_index MASK strs !! Z.land chk MASK = Some bucket ->
          (forall b,
             counter_get
               (votes (build_index MASK strs) MASK (before ++ [chk])) b
             = counter_get (votes (build_index MASK strs) MASK before) b
               + Z.of_nat (length bucket)
                 * Z.of_nat (length (pairs_for chk b bucket)))
          /\ counter_total
               (votes (build_index MASK strs) MASK (before ++ [chk]))
             = counter_total (votes (build_index MASK strs) MASK before)
               + Z.of_nat (length bucket)
                 * Z.of_nat (length (pairs_of chk bucket)))
    /\ run (scan_file fuel endian pointer_size mask) (image ++ word)
       = Returns c'
    /\ c' = vote (build_index MASK strs) MASK c (int_from_bytes word endian)
    /\ (forall b, counter_get c b <= counter_get c' b)
    /\ (build_index MASK strs !! Z.land (int_from_bytes word endian) MASK
        = None -> c' = c)
    /\ forall bucket,
         build_index MASK strs !! Z.land (int_from_bytes word endian) MASK
         = Some bucket ->
         (forall b,
            counter_get c' b
            = counter_get c b
              + Z.of_nat (length bucket)
                * Z.of_nat
                    (length (pairs_for (int_from_bytes word endian) b bucket)))
         /\ counter_total c'
            = counter_total c
              + Z.of_nat (length bucket)
                * Z.of_nat
                    (length (pairs_of (int_from_bytes word endian) bucket))
         /\ forall off str,
              In (off, str) bucket ->
              0 <= int_from_bytes word endian - off ->
              counter_get c' (int_from_bytes word endian - off)
              = counter_get c (int_from_bytes word endian - off)
                + Z.of_nat (length bucket).
Proof.
  set (chk := int_from_bytes word endian).
  apply scan_file_inversion in Hscan
    as (MASK & strs0 & chunks & Hmask & Hstrs0 & Hchunks & ->).
  rewrite Hstrs in Hstrs0. injection Hstrs0 as <-.
  pose proof (chunkify_run_positive _ _ _ _ _ Hchunks) as Hsize.
  apply make_mask_inversion in Hmask as [Hmask ->].
  set (n := Z.to_nat pointer_size).
  assert (Hn : (0 < n)%nat) by lia.
  assert (Hps : pointer_size = Z.of_nat n) by lia.
  assert (Hdiv : blen image / pointer_size = Z.of_nat (length image / n)).
  { unfold blen. rewrite Hps, Nat2Z.inj_div. reflexivity. }
  assert (Hmod : (length image mod n = 0)%nat).
  { apply Nat2Z.inj. rewrite Nat2Z.inj_mod, <- Hps. exact Hwhole. }
  assert (Hwordn : length word = n) by (unfold blen in Hword; lia).
  (* the pointer words of the shorter image *)
  assert (Hold : chunks = decoded_windows image 0 n endian).
  { unfold run, Stream.open in Hchunks.
    rewrite Hps, (chunkify_from_cursor image endian n fuel 0) in Hchunks;
      [|exact Hn|lia|rewrite Nat.sub_0_r; lia].
    cbn [result_of] in Hchunks. now injection Hchunks as <-. }
  (* the scan of the longer image *)
  destruct (scan_file_returns (image ++ word) fuel endian pointer_size mask)
    as (strs' & chunks' & Hstrs' & _ & Hchunks' & Hscan');
    [exact Hmask|exact Hsize| |].
  { unfold blen in *. rewrite length_app, Nat2Z.inj_add, Hword.
    replace (Z.of_nat (length image) + pointer_size)
      with (Z.of_nat (length image) + 1 * pointer_size) by lia.
    rewrite Z.div_add by lia. lia. }
  rewrite Hsame in Hstrs'. injection Hstrs' as <-.
  fold n in Hchunks'.
  rewrite (decoded_windows_one_more image word n endian Hn Hwordn Hmod)
    in Hchunks'.
  rewrite <- Hold in Hchunks'. subst chunks'.
  unfold votes in Hscan'. rewrite fold_left_app in Hscan'.
  cbn [fold_left] in Hscan'. fold (votes (build_index (Z.ones mask) strs)
                                     (Z.ones mask) chunks) in Hscan'.
  fold chk in Hscan'.
  eexists (Z.ones mask), chunks, _.
  split; [apply make_mask_ones, Hmask|]. split; [exact Hchunks|].
  split; [reflexivity|]. split; [|split; [exact Hscan'|]].
  { intros before chk0 after bucket _ Hbucket.
    unfold votes at 1 3. rewrite !fold_left_app. cbn [fold_left].
    fold (votes (build_index (Z.ones mask) strs) (Z.ones mask) before).
    destruct (vote_adds_bucket_size (build_index (Z.ones mask) strs)
                (Z.ones mask)
                (votes (build_index (Z.ones mask) strs) (Z.ones mask) before)
                chk0 bucket Hbucket)
      as (Hget & Htotal & _).
    split; [exact Hget|exact Htotal]. }
  split; [reflexivity|]. split; [|split].
  - intros b. apply vote_never_decrements.
  - intros Hnone. unfold vote. rewrite Hnone. reflexivity.
  - intros bucket Hbucket.
    destruct (vote_adds_bucket_size (build_index (Z.ones mask) strs)
                (Z.ones mask)
                (votes (build_index (Z.ones mask) strs) (Z.ones mask) chunks)
                chk bucket Hbucket)
      as (Hget & Htotal & Hpair & _).
    split; [exact Hget|]. split; [exact Htotal|].
    intros off str Hin Hbase.
    apply (Hpair (off, str) Hin Hbase).
    eapply index_buckets_distinct; [exact Hstrs|exact Hbucket].
Qed.

Lemma appended_pointer_word_adds_bucket_size_witness :
  exists MASK chunks c',
    make_mask 4 = Returns MASK
    /\ run (chunkify 9 4 little) twin_body = Returns chunks
    /\ [] = votes (build_index MASK twin_strings) MASK chunks
    /\ (forall before chk after bucket,
          chunks = before ++ chk :: after ->
          build_index MASK twin_strings !! Z.land chk MASK = Some bucket ->
          (forall b,
             counter_get
               (votes (build_index MASK twin_strings) MASK (before ++ [chk])) b
             = counter_get (votes (build_index MASK twin_strings) MASK before) b
               + Z.of_nat (length bucket)
                 * Z.of_nat (length (pairs_for chk b bucket)))
          /\ counter_total
               (votes (build_index MASK twin_strings) MASK (before ++ [chk]))
             = counter_total (votes (build_index MASK twin_strings) MASK before)
               + Z.of_nat (length bucket)
                 * Z.of_nat (length (pairs_of chk bucket)))
    /\ run (scan_file 9 little 4 4) (twin_body ++ [x10; x10; x00; x00])
       = Returns c'
    /\ c' = vote (build_index MASK twin_strings) MASK []
              (int_from_bytes [x10; x10; x00; x00] little)
    /\ (forall b, counter_get [] b <= counter_get c' b)
    /\ (build_index MASK twin_strings
          !! Z.land (int_from_bytes [x10; x10; x00; x00] little) MASK
        = None -> c' = [])
    /\ forall bucket,
         build_index MASK twin_strings
           !! Z.land (int_from_bytes [x10; x10; x00; x00] little) MASK
         = Some bucket ->
         (forall b,
            counter_get c' b
            = counter_get [] b
              + Z.of_nat (length bucket)
                * Z.of_nat
                    (length
                       (pairs_for (int_from_bytes [x10; x10; x00; x00] little)
                          b bucket)))
         /\ counter_total c'
            = counter_total []
              + Z.of_nat (length bucket)
                * Z.of_nat
                    (length
                       (pairs_of (int_from_bytes [x10; x10; x00; x00] little)
                          bucket))
         /\ forall off str,
              In (off, str) bucket ->
              0 <= int_from_bytes [x10; x10; x00; x00] little - off ->
              counter_get c' (int_from_bytes [x10; x10; x00; x00] little - off)
              = counter_get []
                  (int_from_bytes [x10; x10; x00; x00] little - off)
                + Z.of_nat (length bucket).
Proof.
  apply (appended_pointer_word_adds_bucket_size twin_body [x10; x10; x00; x00]
           9 little 4 4 twin_strings []);
    vm_compute; reflexivity.
Defined.
